(** * The http output of beats-output-http-2, embedded in Rocq

    A shallow embedding of [http.go]: the two serialization strategies,
    the request pool, [send], [Publish], the dialer that [init] installs
    in the transport, and [maskPass].  Stateful code is written in a small monad
    [M] that threads the mutable world (the heap of field maps, the idle
    set of the request pool, a call counter for the outside world) and
    records every externally visible call in a list of effects; a run
    that panics has no result. *)

From stdpp Require Import gmap strings list fin_maps.
From Stdlib Require Import ZArith Ascii.

Open Scope string_scope.
Open Scope list_scope.

(** ** Data model *)

Definition bytes := list Byte.byte.

#[global] Instance byte_eq_dec : EqDecision Byte.byte := Byte.byte_eq_dec.
#[global] Instance bytes_eq_dec : EqDecision bytes := list_eq_dec.

(** Go's [error] values this file creates or passes on. *)
Inductive error :=
| ErrKeyNotFound                 (* libbeat: common.ErrKeyNotFound *)
| BadResponseCode (code : Z)     (* fmt.Errorf("bad response code: %d", ..) *)
| PoolAssertionError             (* errors.New("pool assertion error") *)
| External (msg : string).       (* an error made by a library *)

(** A dynamically typed value stored in a [common.MapStr]. *)
Inductive Value :=
| VString (s : string)
| VTime (t : Z)
| VNil
| VOther (tag : nat).

(** Go maps are references: an event holds the address of its field map.
    An address that the heap does not hold is the nil map. *)
Definition loc := positive.

(** [publisher.Event], with the parts of [beat.Event] the output reads. *)
Record Event := mkEvent {
  Timestamp : Z;
  Fields : loc;
  Guaranteed : bool
}.

(** [*http.Request]: [Header] is a [map[string][]string]. *)
Record Request := mkRequest {
  Method : string;
  URL : string;
  Header : gmap string (list string);
  Body : option bytes
}.

(** [*http.Response], with the outcome of [resp.Body.Close()]. *)
Record Response := mkResponse {
  StatusCode : Z;
  BodyCloseErr : option error
}.

(** What [client.Do] answers; [consumed] is the number of body bytes the
    transport has read from the request when it returns. *)
Inductive DoResult :=
| DoError (consumed : nat) (e : error)
| DoResponse (consumed : nat) (resp : Response).

Record config := mkConfig {
  conf_URL : string;
  OnlyFields : bool;
  Username : string;
  Password : string;
  AddFields : gmap string Value
}.

Record beatInfo := mkBeat { Beat : string; Version : string }.

Inductive Level := LError | LWarn | LDebug.

(** Calls that leave the output: observer, batch callbacks, logger, HTTP
    client, response body and request pool. *)
Inductive Effect :=
| ObsNewBatch (n : nat)
| ObsAcked (n : nat)
| ObsFailed (n : nat)
| BatchACK
| BatchRetryEvents (evs : list Event)
| Log (lvl : Level) (msg : string) (err : option error)
| ClientDo (req : Request)
| BodyClose
| PoolPut (req : Request).

Record World := mkWorld {
  heap : gmap loc (gmap string Value);
  idle : list Request;
  ticks : nat
}.

(** ** The monad of the embedding *)

Record Run (A : Type) := mkRun {
  result : option A;       (* [None]: the goroutine panicked *)
  final : World;
  effects : list Effect
}.
Arguments mkRun {A} _ _ _.
Arguments result {A} _.
Arguments final {A} _.
Arguments effects {A} _.

Definition M (A : Type) : Type := World → Run A.

Definition ret {A} (a : A) : M A := λ w, mkRun (Some a) w [].

Definition bind {A B} (m : M A) (f : A → M B) : M B := λ w,
  let r := m w in
  match result r with
  | None => mkRun None (final r) (effects r)
  | Some a =>
      let r' := f a (final r) in
      mkRun (result r') (final r') (effects r ++ effects r')
  end.

Definition panic {A} : M A := λ w, mkRun None w [].

Definition emit (e : Effect) : M unit := λ w, mkRun (Some tt) w [e].

Notation "'do' x <- m ; k" := (bind m (λ x, k))
  (at level 10, x name, m at level 100, k at level 200).
Notation "m ;; k" := (bind m (λ _, k))
  (at level 100, k at level 200, right associativity).

(** ** Go primitives used by the serializer *)

(** The world in which the map at [l] has become [m]. *)
Definition set_map (l : loc) (m : gmap string Value) (w : World) : World :=
  mkWorld (<[l := m]> (heap w)) (idle w) (ticks w).

(** [m[k] = v]: a write to the nil map panics. *)
Definition map_assign (l : loc) (k : string) (v : Value) : M unit := λ w,
  match heap w !! l with
  | Some m => mkRun (Some tt) (set_map l (<[k := v]> m) w) []
  | None => mkRun None w []
  end.

(** [for key, val := range add { m[key] = val }] on a map that is not
    nil.  The keys of [add] are distinct, so the order of the range does
    not matter. *)
Definition range_assign (l : loc) (add : gmap string Value) : M unit := λ w,
  match heap w !! l with
  | Some m => mkRun (Some tt)
                (set_map l (map_fold (λ k v acc, <[k := v]> acc) m add) w) []
  | None => if decide (add = ∅) then mkRun (Some tt) w [] else mkRun None w []
  end.

(** Reading a map; the nil map reads as the empty one. *)
Definition map_load (l : loc) : M (gmap string Value) := λ w,
  mkRun (Some (default ∅ (heap w !! l))) w [].

(** libbeat's [MapStr.GetValue] at a key without a dot: a plain lookup. *)
Definition GetValue (m : gmap string Value) (key : string) : Value * option error :=
  match m !! key with
  | Some v => (v, None)
  | None => (VNil, Some ErrKeyNotFound)
  end.

(** [v.(string)]: the one-result type assertion panics on any other type. *)
Definition assert_string (v : Value) : M string :=
  match v with
  | VString s => ret s
  | _ => panic
  end.

(** [strings.Split(s, " ")]: one more piece than there are spaces. *)
Fixpoint Split_space (s : string) : list string :=
  match s with
  | EmptyString => [EmptyString]
  | String c rest =>
      if Ascii.eqb c Space then EmptyString :: Split_space rest
      else match Split_space rest with
           | tok :: toks => String c tok :: toks
           | [] => [String c EmptyString]
           end
  end.

(** [slice[i]]: out of range panics. *)
Definition index (slice : list string) (i : nat) : M string :=
  match slice !! i with
  | Some s => ret s
  | None => panic
  end.

Definition log (lvl : Level) (msg : string) (err : option error) : M unit :=
  emit (Log lvl msg err).

(** ** The output *)

(** [codec.Codec]: [Encode(index, &event.Content)] on the timestamp and
    the field map of the event. *)
Definition Codec := string → Z → gmap string Value → bytes + error.

(** [publisher.Batch]; [ACK] and [RetryEvents] are effects. *)
Record Batch := mkBatch { Events : list Event }.

(** What [sync.Pool.Get] hands out as an [interface{}]. *)
Inductive PoolItem :=
| ItemRequest (req : Request)
| ItemError (err : error)
| ItemOther.

(** Library functions the output calls: [json.Marshal], the failure of
    [http.NewRequest] on a URL, and net/http's [basicAuth] encoding. *)
Record Lib := mkLib {
  json_Marshal : gmap string Value → bytes + error;
  NewRequest_error : string → option error;
  basicAuth : string → string → string
}.

(** [client] is the remote as [client.Do] sees it, by call number;
    [reqPool] is the choice [sync.Pool.Get] makes among the idle items
    ([None]: it treats the pool as empty and calls [New]). *)
Record httpOutput := mkOutput {
  beat : beatInfo;
  codec : Codec;
  client : nat → Request → DoResult;
  serialize : Event → M (bytes + error);
  reqPool : nat → list Request → option nat;
  conf : config
}.

Section Output.

Variable lib : Lib.

(** [fields[name] = slice[i]] *)
Definition assign_token (fields : loc) (name : string)
    (slice : list string) (i : nat) : M unit :=
  do tok <- index slice i;
  map_assign fields name (VString tok).

Definition serializeOnlyFields (c : config) (event : Event) : M (bytes + error) :=
  let fields := Fields event in
  map_assign fields "@timestamp" (VTime (Timestamp event)) ;;
  range_assign fields (AddFields c) ;;
  do m <- map_load fields;
  let '(body, err) := GetValue m "body" in
  do str <- assert_string body;
  let slice := Split_space str in
  match err with
  | Some e =>
      log LError "slice error: " (Some e) ;;
      ret (inr e : bytes + error)
  | None =>
      assign_token fields "ifindex" slice 3 ;;
      assign_token fields "actionCode" slice 4 ;;
      assign_token fields "aclTag" slice 6 ;;
      assign_token fields "ruleDesc" slice 8 ;;
      assign_token fields "protocol" slice 9 ;;
      assign_token fields "NFFOrDash" slice 10 ;;
      assign_token fields "srcIp" slice 11 ;;
      assign_token fields "srcPort" slice 12 ;;
      assign_token fields "dstIp" slice 13 ;;
      assign_token fields "dstPort" slice 14 ;;
      assign_token fields "octProto" slice 17 ;;
      assign_token fields "isInput" slice 19 ;;
      assign_token fields "isSlowpath" slice 21 ;;
      assign_token fields "hexFlegs" slice 23 ;;
      assign_token fields "invalidOrDash" slice 25 ;;
      assign_token fields "tcpflags" slice 26 ;;
      assign_token fields "rsvd" slice 28 ;;
      (if decide (29 < length slice) then
         assign_token fields "dur" slice 30 ;;
         assign_token fields "pkts" slice 32 ;;
         assign_token fields "bytes" slice 34
       else ret tt) ;;
      do m' <- map_load fields;
      match json_Marshal lib m' with
      | inr e =>
          log LError "Serialization error: " (Some e) ;;
          ret (inr e : bytes + error)
      | inl serializedEvent => ret (inl serializedEvent)
      end
  end.

Definition serializeAll (b : beatInfo) (cd : Codec) (event : Event) : M (bytes + error) :=
  do m <- map_load (Fields event);
  match cd (Beat b) (Timestamp event) m with
  | inr e =>
      log LError "Serialization error: " (Some e) ;;
      ret (inr e : bytes + error)
  | inl serializedEvent => ret (inl serializedEvent)
  end.

(** The part of [makeHTTP] that builds the output and selects the
    serializer. *)
Definition makeHTTP (b : beatInfo) (cd : Codec)
    (cl : nat → Request → DoResult)
    (pool : nat → list Request → option nat) (c : config) : httpOutput :=
  mkOutput b cd cl
    (if OnlyFields c then serializeOnlyFields c else serializeAll b cd) pool c.

(** *** The request pool *)

(** [reqPool.New], as [init] sets it. *)
Definition reqPool_New (out : httpOutput) : PoolItem :=
  match NewRequest_error lib (conf_URL (conf out)) with
  | Some err => ItemError err
  | None => ItemRequest (mkRequest "POST" (conf_URL (conf out)) ∅ None)
  end.

Definition tick (w : World) : World := mkWorld (heap w) (idle w) (S (ticks w)).

(** [reqPool.Get()]: an idle item is taken out of the pool, or [New]
    makes one. *)
Definition reqPool_Get (out : httpOutput) : M PoolItem := λ w,
  match reqPool out (ticks w) (idle w) with
  | Some i =>
      match idle w !! i with
      | Some req =>
          mkRun (Some (ItemRequest req))
            (mkWorld (heap w) (delete i (idle w)) (S (ticks w))) []
      | None => mkRun (Some (reqPool_New out)) (tick w) []
      end
  | None => mkRun (Some (reqPool_New out)) (tick w) []
  end.

Definition Header_Set (req : Request) (key value : string) : Request :=
  mkRequest (Method req) (URL req) (<[key := [value]]> (Header req)) (Body req).

Definition SetBasicAuth (req : Request) (username password : string) : Request :=
  Header_Set req "Authorization" ("Basic " +:+ basicAuth lib username password).

Definition set_Body (req : Request) (data : bytes) : Request :=
  mkRequest (Method req) (URL req) (Header req) (Some data).

Definition getReq (out : httpOutput) (data : bytes) : M (Request + error) :=
  do tmp <- reqPool_Get out;
  match tmp with
  | ItemRequest req =>
      let req := set_Body req data in
      let req := Header_Set req "User-Agent" ("beat " +:+ Version (beat out)) in
      let req := Header_Set req "Content-Type" "application/json" in
      let req := if decide (Username (conf out) ≠ "")
                 then SetBasicAuth req (Username (conf out)) (Password (conf out))
                 else req in
      ret (inl req)
  | ItemError err => ret (inr err)
  | ItemOther => ret (inr PoolAssertionError)
  end.

Definition putReq (req : Request) : M unit := λ w,
  mkRun (Some tt) (mkWorld (heap w) (req :: idle w) (ticks w)) [PoolPut req].

(** *** send *)

(** The request object after the transport has read [n] bytes of it. *)
Definition drained (n : nat) (req : Request) : Request :=
  mkRequest (Method req) (URL req) (Header req) (drop n <$> Body req).

(** [out.client.Do(req)] *)
Definition client_Do (out : httpOutput) (req : Request) : M DoResult := λ w,
  mkRun (Some (client out (ticks w) req)) (tick w) [ClientDo req].

Definition consumed_of (d : DoResult) : nat :=
  match d with DoError n _ => n | DoResponse n _ => n end.

(** [defer cleanup] before [body]: [cleanup] runs when [body] is left,
    also by a panic. *)
Definition defer {A} (cleanup : M unit) (body : M A) : M A := λ w,
  let r := body w in
  let c := cleanup (final r) in
  mkRun (match result c with Some _ => result r | None => None end)
        (final c) (effects r ++ effects c).

(** [req] is a pointer: the deferred [putReq] returns the object in the
    state the transport left it in.  The source defers before it calls
    [client.Do]; the call does not panic here, so the deferred call is
    written around what follows it. *)
Definition send (out : httpOutput) (data : bytes) : M (option error) :=
  do r <- getReq out data;
  match r with
  | inr err => ret (Some err)
  | inl req =>
      do d <- client_Do out req;
      defer (putReq (drained (consumed_of d) req))
        match d with
        | DoError _ err => ret (Some err)
        | DoResponse _ resp =>
            emit BodyClose ;;
            match BodyCloseErr resp with
            | Some err => log LWarn "Close response body error:" (Some err)
            | None => ret tt
            end ;;
            if decide (StatusCode resp ≠ 200%Z)
            then ret (Some (BadResponseCode (StatusCode resp)))
            else ret None
        end
  end.

(** *** Publish *)

Definition log_by_guarantee (event : Event) (msg : string) (err : error) : M unit :=
  if Guaranteed event then log LError msg (Some err) else log LWarn msg (Some err).

(** The loop [for i := range events] of [Publish], on the events still
    to be processed; [events] is the whole slice. *)
Fixpoint Publish_loop (out : httpOutput) (events rest : list Event) : M (option error) :=
  match rest with
  | [] =>
      emit BatchACK ;;
      emit (ObsAcked (length events)) ;;
      ret None
  | event :: rest' =>
      do s <- serialize out event;
      match s with
      | inr err =>
          log_by_guarantee event "Failed to serialize the event: %+v" err ;;
          log LDebug "Failed event: %v" None ;;
          emit (BatchRetryEvents events) ;;
          emit (ObsFailed (length events)) ;;
          ret None
      | inl serializedEvent =>
          do e <- send out serializedEvent;
          match e with
          | Some err =>
              log_by_guarantee event "Writing event to http failed with: %+v" err ;;
              emit (ObsFailed (length events)) ;;
              ret None
          | None => Publish_loop out events rest'
          end
      end
  end.

Definition Publish (out : httpOutput) (batch : Batch) : M (option error) :=
  let events := Events batch in
  emit (ObsNewBatch (length events)) ;;
  if decide (length events = 0) then
    emit BatchACK ;;
    ret None
  else Publish_loop out events events.

End Output.

(** ** The dialer of the transport *)

Record Conn := mkConn { conn_network : string; conn_remote : string }.

(** The network as the dialer meets it: [net.SplitHostPort], the lookup
    of the repository's resolver ([dnsCache.LookupHost], whose source is
    outside this file and is taken as given), and
    [net.Dialer.DialContext] by number of the attempt within one call. *)
Record Net := mkNet {
  SplitHostPort : string → (string * string) + error;
  LookupHost : string → list string + error;
  Dialer_DialContext : nat → string → string → Conn + error
}.

Fixpoint has_colon (s : string) : bool :=
  match s with
  | EmptyString => false
  | String c rest => if Ascii.eqb c ":"%char then true else has_colon rest
  end.

(** [net.JoinHostPort]: a host with a colon in it is put in brackets. *)
Definition JoinHostPort (host port : string) : string :=
  if has_colon host then "[" +:+ host +:+ "]:" +:+ port
  else host +:+ ":" +:+ port.

(** The named results [conn] and [err] of the closure, with the
    addresses it dialed. *)
Record Dialed := mkDialed {
  attempts : list string;
  dialed_conn : option Conn;
  dialed_err : option error
}.

(** [for _, ip := range ips], with the values [conn] and [err] hold on
    entry; [k] attempts were made before. *)
Fixpoint dial_range (n : Net) (network port : string) (k : nat)
    (ips : list string) (conn : option Conn) (err : option error) : Dialed :=
  match ips with
  | [] => mkDialed [] conn err
  | ip :: ips' =>
      let address := JoinHostPort ip port in
      let '(conn, err) :=
        match Dialer_DialContext n k network address with
        | inl c => (Some c, None)
        | inr e => (None, Some e)
        end in
      match err with
      | None => mkDialed [address] conn err
      | Some _ =>
          let d := dial_range n network port (S k) ips' conn err in
          mkDialed (address :: attempts d) (dialed_conn d) (dialed_err d)
      end
  end.

(** The [DialContext] closure that [init] installs. *)
Definition DialContext (n : Net) (network addr : string) : Dialed :=
  match SplitHostPort n addr with
  | inr e => mkDialed [] None (Some e)
  | inl (host, port) =>
      match LookupHost n host with
      | inr e => mkDialed [] None (Some e)
      | inl ips => dial_range n network port 0 ips None None
      end
  end.

(** ** Masking the password for the log *)

(** Whether the byte [c] lies in [lo..hi]. *)
Definition byte_in (lo hi : nat) (c : ascii) : bool :=
  (lo <=? nat_of_ascii c)%nat && (nat_of_ascii c <=? hi)%nat.

(** The bytes [s[1]], [s[2]], ... of a multi-byte rune: the second byte
    in [lo..hi], [more] further continuation bytes in 0x80..0xBF. *)
Fixpoint continues (lo hi : nat) (more : nat) (s : string) : bool :=
  match s with
  | EmptyString => false
  | String c rest =>
      byte_in lo hi c &&
      match more with
      | O => true
      | S k => continues 128 191 k rest
      end
  end.

(** How many bytes the rune at the head of [s] takes, and whether it is
    well formed, as [for i, char := range s] decodes it: a byte that
    starts no well-formed sequence is one rune of width 1. *)
Definition rune_width (s : string) : nat * bool :=
  match s with
  | EmptyString => (0%nat, false)
  | String c rest =>
      let x := nat_of_ascii c in
      if (x <? 128)%nat then (1%nat, true)
      else if byte_in 194 223 c then
        if continues 128 191 0 rest then (2%nat, true) else (1%nat, false)
      else if (x =? 224)%nat then
        if continues 160 191 1 rest then (3%nat, true) else (1%nat, false)
      else if (x =? 237)%nat then
        if continues 128 159 1 rest then (3%nat, true) else (1%nat, false)
      else if byte_in 225 239 c then
        if continues 128 191 1 rest then (3%nat, true) else (1%nat, false)
      else if (x =? 240)%nat then
        if continues 144 191 2 rest then (4%nat, true) else (1%nat, false)
      else if byte_in 241 243 c then
        if continues 128 191 2 rest then (4%nat, true) else (1%nat, false)
      else if (x =? 244)%nat then
        if continues 128 143 2 rest then (4%nat, true) else (1%nat, false)
      else (1%nat, false)
  end.

Fixpoint take_string (k : nat) (s : string) : string :=
  match k, s with
  | S k', String c rest => String c (take_string k' rest)
  | _, _ => EmptyString
  end.

(** [string(char)] for the rune at the head of [s]: its own bytes, or
    the encoding of U+FFFD for a byte that is no rune. *)
Definition rune_string (s : string) : string :=
  let '(width, valid) := rune_width s in
  if valid then take_string width s
  else String (ascii_of_nat 239) (String (ascii_of_nat 191) (String (ascii_of_nat 189) EmptyString)).

(** [for i := 0; i < n; i++ { result += "*" }] *)
Fixpoint stars (n : nat) : string :=
  match n with
  | O => EmptyString
  | S k => "*" +:+ stars k
  end.

(** [for i, char := range password] from byte index [i] on; [skip] bytes
    of the rune last decoded are still ahead. *)
Fixpoint mask_range (len i skip : nat) (s : string) : string :=
  match s with
  | EmptyString => EmptyString
  | String _ rest =>
      match skip with
      | S k => mask_range len (S i) k rest
      | O =>
          (if (1 <? i)%nat && (i <? len - 2)%nat then "*" else rune_string s)
          +:+ mask_range len (S i) (fst (rune_width s) - 1) rest
      end
  end.

Definition maskPass (password : string) : string :=
  if (String.length password <=? 8)%nat then stars (String.length password)
  else mask_range (String.length password) 0 0 password.


(** * Vocabulary of the statements *)

(** ** Token assignments *)

(** A run of [fields[name] = slice[i]] statements, then [k]. *)
Definition assign_tokens {A} (l : loc) (slice : list string)
    (table : list (string * nat)) (k : M A) : M A :=
  foldr (λ p k, assign_token l p.1 slice p.2 ;; k) k table.

(** The map those statements leave when every index is in range. *)
Definition store_tokens (slice : list string) (table : list (string * nat))
    (m : gmap string Value) : gmap string Value :=
  foldl (λ m p, <[p.1 := VString (default "" (slice !! p.2))]> m) m table.

(** The assignments [serializeOnlyFields] always makes. *)
Definition fixed_tokens : list (string * nat) :=
  [("ifindex", 3); ("actionCode", 4); ("aclTag", 6); ("ruleDesc", 8);
   ("protocol", 9); ("NFFOrDash", 10); ("srcIp", 11); ("srcPort", 12);
   ("dstIp", 13); ("dstPort", 14); ("octProto", 17); ("isInput", 19);
   ("isSlowpath", 21); ("hexFlegs", 23); ("invalidOrDash", 25);
   ("tcpflags", 26); ("rsvd", 28)].

(** The first two of the three it makes for a slice longer than 29. *)
Definition extra_tokens : list (string * nat) :=
  [("dur", 30); ("pkts", 32)].

(** The value [fields.GetValue("body")] finds in an event whose field
    map was [m] when [serializeOnlyFields] was entered: by then the
    configured [add_fields] have been written over the event's own. *)
Definition body_read (c : config) (m : gmap string Value) : option Value :=
  (AddFields c ∪ m) !! "body".

(** The field map at the lookup of "body". *)
Definition fields_at_lookup (c : config) (event : Event)
    (m : gmap string Value) : gmap string Value :=
  AddFields c ∪ <["@timestamp" := VTime (Timestamp event)]> m.

(** The last step of [serializeOnlyFields]. *)
Definition marshal_fields (lib : Lib) (l : loc) : M (bytes + error) :=
  do m' <- map_load l;
  match json_Marshal lib m' with
  | inr e =>
      log LError "Serialization error: " (Some e) ;;
      ret (inr e : bytes + error)
  | inl serializedEvent => ret (inl serializedEvent)
  end.

(** ** Views of a list of effects *)

(** The calls on the batch and on the observer. *)
Definition batch_level (e : Effect) : option Effect :=
  match e with
  | ObsNewBatch _ | ObsAcked _ | ObsFailed _ | BatchACK | BatchRetryEvents _ => Some e
  | _ => None
  end.
Definition batch_calls (es : list Effect) : list Effect := omap batch_level es.

(** The calls on the observer alone. *)
Definition observed (e : Effect) : option Effect :=
  match e with
  | ObsNewBatch _ | ObsAcked _ | ObsFailed _ => Some e
  | _ => None
  end.
Definition observer_calls (es : list Effect) : list Effect := omap observed es.

(** The requests handed to [client.Do]. *)
Definition sent (e : Effect) : option Request :=
  match e with ClientDo req => Some req | _ => None end.
Definition sends (es : list Effect) : list Request := omap sent es.

(** What [send] logs after closing the body, and what it returns for a
    response. *)
Definition close_log (resp : Response) : list Effect :=
  match BodyCloseErr resp with
  | Some err => [Log LWarn "Close response body error:" (Some err)]
  | None => []
  end.

Definition status_error (resp : Response) : option error :=
  if decide (StatusCode resp ≠ 200%Z)
  then Some (BadResponseCode (StatusCode resp)) else None.

(** ** Serializers *)

(** Every effect of a computation, from whatever world, is a [P]. *)
Definition effects_all {A} (P : Effect → Prop) (m : M A) : Prop :=
  ∀ w, Forall P (effects (m w)).

(** A computation whose only effects are log lines. *)
Definition is_log (e : Effect) : Prop :=
  match e with Log _ _ _ => True | _ => False end.
Definition only_logs {A} (m : M A) : Prop := effects_all is_log m.

Definition quiet_serializer (out : httpOutput) : Prop :=
  ∀ event, only_logs (serialize out event).

(** The severity [Publish] logs a failure of [event] with. *)
Definition severity (event : Event) : Level :=
  if Guaranteed event then LError else LWarn.

(** ** Batches *)

(** Every event of [evs] is serialized and sent without error, one after
    the other from world [w]: the world this leaves and the effects it
    has. *)
Fixpoint deliver_all (lib : Lib) (out : httpOutput) (evs : list Event)
    (w : World) : option (World * list Effect) :=
  match evs with
  | [] => Some (w, [])
  | event :: rest =>
      let s := serialize out event w in
      match result s with
      | Some (inl data) =>
          let r := send lib out data (final s) in
          match result r with
          | Some None =>
              match deliver_all lib out rest (final r) with
              | Some (w', es) => Some (w', effects s ++ effects r ++ es)
              | None => None
              end
          | _ => None
          end
      | _ => None
      end
  end.

(** ** Use of the request pool *)






(** ** Dialing *)

(** Every address of [ips] refuses the connection, as attempts [k],
    [k+1], ... *)
Fixpoint all_refused (n : Net) (network port : string) (k : nat)
    (ips : list string) : bool :=
  match ips with
  | [] => true
  | ip :: ips' =>
      match Dialer_DialContext n k network (JoinHostPort ip port) with
      | inl _ => false
      | inr _ => all_refused n network port (S k) ips'
      end
  end.

(** ** More vocabulary *)

(** Every byte of [s] is below 0x80. *)
Fixpoint is_ascii_string (s : string) : bool :=
  match s with
  | EmptyString => true
  | String c rest => (nat_of_ascii c <? 128)%nat && is_ascii_string rest
  end.

(** The byte positions of a password of [len] bytes that [maskPass]
    leaves readable. *)
Definition revealed (len k : nat) : bool :=
  (8 <? len)%nat && ((k <? 2)%nat || (len - 2 <=? k)%nat).

(** The assignments [serializeOnlyFields] makes for a slice. *)
Definition tokens_for (slice : list string) : list (string * nat) :=
  if decide (29 < length slice)%nat
  then fixed_tokens ++ extra_tokens ++ [("bytes", 34%nat)]
  else fixed_tokens.

(** The names [serializeOnlyFields] may assign a token to. *)
Definition token_names : list string :=
  (fixed_tokens ++ extra_tokens ++ [("bytes", 34%nat)]).*1.

(** [w'] differs from [w] at most in the field map at [l], which it
    has, and which agrees with [X] outside the token names. *)
Definition fields_written (l : loc) (X : gmap string Value) (w w' : World) : Prop :=
  idle w' = idle w ∧ ticks w' = ticks w ∧
  (∀ l', l' ≠ l → heap w' !! l' = heap w !! l') ∧
  ∃ m', heap w' !! l = Some m' ∧ ∀ k, k ∉ token_names → m' !! k = X !! k.

(** The idle request [reqPool.Get] takes out of the pool, if it takes
    one. *)
Definition picked (out : httpOutput) (w : World) : option Request :=
  reqPool out (ticks w) (idle w) ≫= (λ i, idle w !! i).

(** The requests handed back to the pool. *)
Definition put_back (e : Effect) : option Request :=
  match e with PoolPut req => Some req | _ => None end.
Definition puts (es : list Effect) : list Request := omap put_back es.


(** [p] is the request [s] after the transport has read of it. *)
Definition came_back (s p : Request) : Prop := ∃ n, p = drained n s.

(** The number of spaces in [s]. *)
Fixpoint count_spaces (s : string) : nat :=
  match s with
  | EmptyString => 0
  | String c rest => (if Ascii.eqb c Space then 1 else 0) + count_spaces rest
  end.

(** The bytes the serializer returns for the events of [evs], one after
    the other from world [w], each sent before the next is serialized. *)
Fixpoint payloads (lib : Lib) (out : httpOutput) (evs : list Event)
    (w : World) : list bytes :=
  match evs with
  | [] => []
  | event :: rest =>
      match result (serialize out event w) with
      | Some (inl data) =>
          data :: payloads lib out rest
                    (final (send lib out data (final (serialize out event w))))
      | _ => []
      end
  end.

(** * Sample inputs *)

Definition text (s : string) : bytes := String.list_byte_of_string s.

(** A [json.Marshal] that accepts every map, an [http.NewRequest] that
    accepts every URL. *)
Definition lib_lenient : Lib :=
  mkLib (λ _, inl (text "{}")) (λ _, None) (λ u p, u +:+ ":" +:+ p).

(** A [json.Marshal] that fails on every map. *)
Definition lib_no_json : Lib :=
  mkLib (λ _, inr (External "json: unsupported value")) (λ _, None)
    (λ u p, u +:+ ":" +:+ p).

(** An [http.NewRequest] that rejects every URL. *)
Definition lib_bad_url : Lib :=
  mkLib (λ _, inl (text "{}")) (λ _, Some (External "parse url"))
    (λ u p, u +:+ ":" +:+ p).

Definition line30 : string :=
  "t0 t1 t2 t3 t4 t5 t6 t7 t8 t9 t10 t11 t12 t13 t14 t15 t16 t17 t18 t19 t20 t21 t22 t23 t24 t25 t26 t27 t28 t29".

Definition line35 : string :=
  "t0 t1 t2 t3 t4 t5 t6 t7 t8 t9 t10 t11 t12 t13 t14 t15 t16 t17 t18 t19 t20 t21 t22 t23 t24 t25 t26 t27 t28 t29 t30 t31 t32 t33 t34".

(** A world whose only field map, at address 1, is [m]. *)
Definition world_with (m : gmap string Value) : World :=
  mkWorld {[ 1%positive := m ]} [] 0.

Definition event1 : Event := mkEvent 1700000000 1%positive true.
Definition event2 : Event := mkEvent 1700000001 2%positive false.
Definition event3 : Event := mkEvent 1700000002 3%positive true.

Definition conf_plain : config :=
  mkConfig "http://collector:8080/in" true "" "" ∅.

(** A configuration whose [add_fields] carry a "body" of their own. *)
Definition conf_body_added : config :=
  mkConfig "http://collector:8080/in" true "" "" {[ "body" := VString line35 ]}.

(** A configuration that encodes with the codec and authenticates. *)
Definition conf_codec : config :=
  mkConfig "http://collector:8080/in" false "shipper" "secret" ∅.

Definition beat_sample : beatInfo := mkBeat "filebeat" "7.17.0".

(** A codec that encodes the "message" of an event and fails without. *)
Definition codec_message : Codec := λ _ _ m,
  match m !! "message" with
  | Some (VString s) => inl (text s)
  | _ => inr (External "no message")
  end.

(** A remote that answers 500 to the body "boom", cannot be reached for
    the body "down", answers 200 with a body that fails to close for
    "sticky", and answers 200 to everything else. *)
Definition remote_sample : nat → Request → DoResult := λ _ req,
  match Body req with
  | Some b =>
      if decide (b = text "boom") then DoResponse 4 (mkResponse 500 None)
      else if decide (b = text "down") then DoError 0 (External "connection refused")
      else if decide (b = text "sticky")
           then DoResponse 3 (mkResponse 200 (Some (External "close")))
      else DoResponse (length b) (mkResponse 200 None)
  | None => DoResponse 0 (mkResponse 200 None)
  end.

(** A pool that hands out its first idle request. *)
Definition pool_first : nat → list Request → option nat := λ _ idle,
  match idle with [] => None | _ => Some 0%nat end.

Definition out_codec : httpOutput :=
  makeHTTP lib_lenient beat_sample codec_message remote_sample pool_first conf_codec.


(** An output that extracts fields and whose [json.Marshal] fails. *)
Definition out_fields_no_json : httpOutput :=
  makeHTTP lib_no_json beat_sample codec_message remote_sample pool_first conf_plain.

(** A network whose resolver answers without an address. *)
Definition net_no_address : Net :=
  mkNet (λ _, inl ("collector", "8080")) (λ _, inl [])
    (λ _ _ _, inr (External "unreachable")).

Definition world_of (m1 m2 m3 : gmap string Value) : World :=
  mkWorld {[ 1%positive := m1; 2%positive := m2; 3%positive := m3 ]} [] 0.

Definition msg (s : string) : gmap string Value := {[ "message" := VString s ]}.

(** A network in which the host "collector" resolves to two addresses,
    the first of which refuses the connection, "nowhere" does not
    resolve, and "dead" resolves to two addresses that both refuse. *)
Definition net_sample : Net :=
  mkNet
    (λ addr, if decide (addr = "collector:8080") then inl ("collector", "8080")
             else if decide (addr = "nowhere:8080") then inl ("nowhere", "8080")
             else if decide (addr = "dead:8080") then inl ("dead", "8080")
             else inr (External "missing port in address"))
    (λ host, if decide (host = "collector") then inl ["10.0.0.1"; "10.0.0.2"]
             else if decide (host = "dead") then inl ["10.0.0.1"; "10.0.0.3"]
             else inr (External "no such host"))
    (λ k network address,
       if decide (address = "10.0.0.2:8080") then inl (mkConn network address)
       else if decide (address = "10.0.0.1:8080")
            then inr (External "connection refused")
       else inr (External "no route to host")).

(** An output that extracts fields, with a [json.Marshal] that accepts
    every map. *)
Definition out_fields : httpOutput :=
  makeHTTP lib_lenient beat_sample codec_message remote_sample pool_first conf_plain.

(** A pooled request as a first [send] of "abc" leaves it. *)
Definition request_used : Request :=
  mkRequest "POST" "http://collector:8080/in"
    {[ "Content-Type" := ["application/json"]; "X-Trace" := ["1"] ]}
    (Some []).

(** A world with a line of 35 pieces at address 1 and a line of 30
    pieces at address 2. *)
Definition world_two_lines : World :=
  mkWorld {[ 1%positive := {[ "body" := VString line35 ]};
             2%positive := {[ "body" := VString line30 ]} ]} [] 0.

(** * Properties *)

(** ** The monad *)

Section MonadFacts.
Context {A B : Type}.

Lemma run_eta (r : Run A) : mkRun (result r) (final r) (effects r) = r.
Proof. by destruct r. Qed.

Lemma result_bind (m : M A) (k : A → M B) w :
  result (bind m k w) =
  match result (m w) with
  | Some a => result (k a (final (m w)))
  | None => None
  end.
Proof. unfold bind. by destruct (result (m w)). Qed.

Lemma effects_bind (m : M A) (k : A → M B) w :
  effects (bind m k w) =
  match result (m w) with
  | Some a => effects (m w) ++ effects (k a (final (m w)))
  | None => effects (m w)
  end.
Proof. unfold bind. by destruct (result (m w)). Qed.

Lemma final_bind (m : M A) (k : A → M B) w :
  final (bind m k w) =
  match result (m w) with
  | Some a => final (k a (final (m w)))
  | None => final (m w)
  end.
Proof. unfold bind. by destruct (result (m w)). Qed.

Lemma bind_panics (m : M A) (k : A → M B) w w' es :
  m w = mkRun None w' es → bind m k w = mkRun None w' es.
Proof. intros H. unfold bind. by rewrite H. Qed.
End MonadFacts.

(** A step that returns without an effect hands the world on. *)
Lemma bind_silent {A B} (m : M A) (k : A → M B) w a w' :
  m w = mkRun (Some a) w' [] → bind m k w = k a w'.
Proof. intros H. unfold bind. rewrite H. simpl. apply run_eta. Qed.

(** ** Field maps *)

Lemma heap_set_map l m w : heap (set_map l m w) !! l = Some m.
Proof. apply lookup_insert_eq. Qed.

Lemma set_map_id l m w : heap w !! l = Some m → set_map l m w = w.
Proof. intros H. destruct w. unfold set_map. simpl in *. by rewrite insert_id. Qed.

Lemma set_map_twice l m1 m2 w : set_map l m2 (set_map l m1 w) = set_map l m2 w.
Proof. unfold set_map. simpl. by rewrite insert_insert_eq. Qed.

Lemma map_assign_live l k v w m :
  heap w !! l = Some m →
  map_assign l k v w = mkRun (Some tt) (set_map l (<[k := v]> m) w) [].
Proof. intros H. unfold map_assign. by rewrite H. Qed.

Lemma map_assign_nil l k v w :
  heap w !! l = None → map_assign l k v w = mkRun None w [].
Proof. intros H. unfold map_assign. by rewrite H. Qed.

(** Ranging over [add] and assigning every pair overrides [m] with [add]. *)
Lemma range_overrides (add m : gmap string Value) :
  map_fold (λ k v acc, <[k := v]> acc) m add = add ∪ m.
Proof.
  apply (map_fold_weak_ind (λ r a, r = a ∪ m)).
  - by rewrite (left_id_L ∅ (∪)).
  - intros i x a r _ ->. apply insert_union_l.
Qed.

Lemma range_assign_live l add w m :
  heap w !! l = Some m →
  range_assign l add w = mkRun (Some tt) (set_map l (add ∪ m) w) [].
Proof. intros H. unfold range_assign. by rewrite H, range_overrides. Qed.

(** ** Token assignments *)

Lemma assign_token_in_range l name (slice : list string) (i : nat) w m tok :
  heap w !! l = Some m → slice !! i = Some tok →
  assign_token l name slice i w =
  mkRun (Some tt) (set_map l (<[name := VString tok]> m) w) [].
Proof.
  intros Hm Hi. unfold assign_token, index. rewrite Hi.
  rewrite (bind_silent _ _ w tok w) by done. by apply map_assign_live.
Qed.

Lemma assign_token_out_of_range l name (slice : list string) (i : nat) w :
  (length slice ≤ i)%nat → assign_token l name slice i w = mkRun None w [].
Proof.
  intros Hi. unfold assign_token, index.
  by rewrite (lookup_ge_None_2 slice i Hi).
Qed.

Lemma assign_tokens_run {A} l (slice : list string) table (k : M A) : ∀ w m,
  heap w !! l = Some m →
  Forall (λ p, (p.2 < length slice)%nat) table →
  assign_tokens l slice table k w = k (set_map l (store_tokens slice table m) w).
Proof.
  induction table as [|[name i] table IH]; intros w m Hm Hall.
  - simpl. by rewrite set_map_id.
  - apply Forall_cons in Hall as [Hi Hall]. simpl in Hi.
    destruct (lookup_lt_is_Some_2 slice i Hi) as [tok Htok].
    change (assign_tokens l slice ((name, i) :: table) k)
      with (assign_token l name slice i ;; assign_tokens l slice table k).
    rewrite (bind_silent _ _ w tt _
               (assign_token_in_range l name slice i w m tok Hm Htok)).
    rewrite (IH _ _ (heap_set_map l _ w) Hall), set_map_twice.
    simpl. by rewrite Htok.
Qed.

(** The first index out of range panics, and nothing is logged. *)
Lemma assign_tokens_panic {A} l (slice : list string) table (k : M A) : ∀ w m,
  heap w !! l = Some m →
  Exists (λ p, (length slice ≤ p.2)%nat) table →
  result (assign_tokens l slice table k w) = None ∧
  effects (assign_tokens l slice table k w) = [].
Proof.
  induction table as [|[name i] table IH]; intros w m Hm Hex.
  - by apply Exists_nil in Hex.
  - change (assign_tokens l slice ((name, i) :: table) k)
      with (assign_token l name slice i ;; assign_tokens l slice table k).
    destruct (decide (i < length slice)%nat) as [Hi | Hi].
    + apply Exists_cons in Hex as [Hex | Hex]; [simpl in Hex; lia |].
      destruct (lookup_lt_is_Some_2 slice i Hi) as [tok Htok].
      rewrite (bind_silent _ _ w tt _
                 (assign_token_in_range l name slice i w m tok Hm Htok)).
      exact (IH _ _ (heap_set_map l _ w) Hex).
    + rewrite (bind_panics _ _ w w []); [done |].
      apply assign_token_out_of_range. lia.
Qed.

(** ** serializeOnlyFields *)

Lemma map_load_live l w m :
  heap w !! l = Some m → map_load l w = mkRun (Some m) w [].
Proof. intros H. unfold map_load. by rewrite H. Qed.

Lemma body_at_lookup c event m :
  fields_at_lookup c event m !! "body" = body_read c m.
Proof.
  unfold fields_at_lookup, body_read.
  rewrite !lookup_union. by rewrite lookup_insert_ne.
Qed.

Section SerializerFacts.
Variable lib : Lib.

(** With a string under "body", the function reaches the token
    assignments on the merged field map. *)
Lemma serializeOnlyFields_string c event w m str :
  heap w !! Fields event = Some m →
  body_read c m = Some (VString str) →
  serializeOnlyFields lib c event w =
  assign_tokens (Fields event) (Split_space str) fixed_tokens
    ((if decide (29 < length (Split_space str)) then
        assign_tokens (Fields event) (Split_space str) extra_tokens
          (assign_token (Fields event) "bytes" (Split_space str) 34)
      else ret tt) ;;
     marshal_fields lib (Fields event))
    (set_map (Fields event) (fields_at_lookup c event m) w).
Proof.
  intros Hm Hbody. unfold serializeOnlyFields. cbv zeta.
  rewrite (bind_silent _ _ w tt _ (map_assign_live _ _ _ _ _ Hm)).
  rewrite (bind_silent _ _ _ tt _
             (range_assign_live _ _ _ _ (heap_set_map _ _ _))).
  rewrite set_map_twice.
  rewrite (bind_silent _ _ _ _ _ (map_load_live _ _ _ (heap_set_map _ _ _))).
  fold (fields_at_lookup c event m).
  unfold GetValue. rewrite body_at_lookup, Hbody. cbn [assert_string].
  rewrite (bind_silent (ret str) _ _ str _ eq_refl).
  unfold assign_tokens, fixed_tokens, extra_tokens, marshal_fields.
  cbn [foldr fst snd]. reflexivity.
Qed.

(** Anything else under "body", or nothing, stops at the type
    assertion. *)
Lemma serializeOnlyFields_no_string c event w m :
  heap w !! Fields event = Some m →
  (∀ str, body_read c m ≠ Some (VString str)) →
  serializeOnlyFields lib c event w =
  mkRun None (set_map (Fields event) (fields_at_lookup c event m) w) [].
Proof.
  intros Hm Hbody. unfold serializeOnlyFields. cbv zeta.
  rewrite (bind_silent _ _ w tt _ (map_assign_live _ _ _ _ _ Hm)).
  rewrite (bind_silent _ _ _ tt _
             (range_assign_live _ _ _ _ (heap_set_map _ _ _))).
  rewrite set_map_twice.
  rewrite (bind_silent _ _ _ _ _ (map_load_live _ _ _ (heap_set_map _ _ _))).
  fold (fields_at_lookup c event m).
  unfold GetValue. rewrite body_at_lookup.
  destruct (body_read c m) as [[str| | |]|] eqn:Hb; cbn [assert_string];
    try (apply bind_panics; reflexivity).
  by destruct (Hbody str).
Qed.

(** An event whose field map is nil panics at the first assignment. *)
Lemma serializeOnlyFields_nil_map c event w :
  heap w !! Fields event = None →
  serializeOnlyFields lib c event w = mkRun None w [].
Proof.
  intros Hm. unfold serializeOnlyFields. cbv zeta.
  apply bind_panics. by apply map_assign_nil.
Qed.
End SerializerFacts.

(** ** What serializers do that is seen outside *)

Section EffectsAll.
Variable P : Effect → Prop.

Lemma effects_all_ret {A} (a : A) : effects_all P (ret a).
Proof. intros w. constructor. Qed.

Lemma effects_all_panic {A} : effects_all P (@panic A).
Proof. intros w. constructor. Qed.

Lemma effects_all_log lvl msg err :
  P (Log lvl msg err) → effects_all P (log lvl msg err).
Proof. intros H w. by repeat constructor. Qed.

Lemma effects_all_bind {A B} (m : M A) (k : A → M B) :
  effects_all P m → (∀ a, effects_all P (k a)) → effects_all P (bind m k).
Proof.
  intros Hm Hk w. rewrite effects_bind.
  destruct (result (m w)); [| apply Hm].
  apply Forall_app. split; [apply Hm | apply Hk].
Qed.

(** Nothing behind a panic is run. *)
Lemma effects_all_bind_panic {A B} (k : A → M B) : effects_all P (bind panic k).
Proof. intros w. constructor. Qed.

Lemma effects_all_map_assign l k v : effects_all P (map_assign l k v).
Proof. intros w. unfold map_assign. destruct (heap w !! l); constructor. Qed.

Lemma effects_all_range_assign l add : effects_all P (range_assign l add).
Proof.
  intros w. unfold range_assign.
  destruct (heap w !! l); [constructor |]. destruct (decide _); constructor.
Qed.

Lemma effects_all_map_load l : effects_all P (map_load l).
Proof. intros w. constructor. Qed.

Lemma effects_all_assign_token l name slice i :
  effects_all P (assign_token l name slice i).
Proof.
  unfold assign_token, index. apply effects_all_bind.
  - destruct (slice !! i); [apply effects_all_ret | apply effects_all_panic].
  - intros tok. apply effects_all_map_assign.
Qed.

Ltac effects_leaf :=
  first
    [ apply effects_all_ret | apply effects_all_panic
    | apply effects_all_log; solve [auto]
    | apply effects_all_map_assign | apply effects_all_range_assign
    | apply effects_all_map_load | apply effects_all_assign_token ].

Ltac effects_seq :=
  repeat (apply effects_all_bind; [effects_leaf | intros ?]); try effects_leaf.

(** Whatever holds of the log line for a failure of [json.Marshal] holds
    of every effect of [serializeOnlyFields]: the line "slice error" is
    never written, for a lookup error leaves a nil value under the type
    assertion, which panics first. *)
Lemma effects_all_serializeOnlyFields lib c event :
  (∀ e, P (Log LError "Serialization error: " (Some e))) →
  effects_all P (serializeOnlyFields lib c event).
Proof.
  intros HP. unfold serializeOnlyFields. cbv zeta.
  apply effects_all_bind; [apply effects_all_map_assign | intros _].
  apply effects_all_bind; [apply effects_all_range_assign | intros _].
  apply effects_all_bind; [apply effects_all_map_load | intros m].
  unfold GetValue. destruct (m !! "body") as [body |].
  - apply effects_all_bind; [destruct body; effects_leaf | intros str].
    effects_seq.
    apply effects_all_bind.
    { destruct (decide (29 < length (Split_space str))%nat); effects_seq. }
    intros _. apply effects_all_bind; [apply effects_all_map_load | intros m'].
    destruct (json_Marshal lib m'); effects_seq.
  - apply effects_all_bind_panic.
Qed.

Lemma effects_all_serializeAll b cd event :
  (∀ e, P (Log LError "Serialization error: " (Some e))) →
  effects_all P (serializeAll b cd event).
Proof.
  intros HP. unfold serializeAll.
  apply effects_all_bind; [apply effects_all_map_load |].
  intros m. destruct (cd _ _ m); effects_seq.
Qed.
End EffectsAll.

Lemma only_logs_makeHTTP lib b cd cl pool c event :
  only_logs (serialize (makeHTTP lib b cd cl pool c) event).
Proof.
  unfold makeHTTP, only_logs. cbn [serialize]. destruct (OnlyFields c).
  - by apply effects_all_serializeOnlyFields.
  - by apply effects_all_serializeAll.
Qed.

Section SerializerClaims.
Variable lib : Lib.

(** C9 (amended): when the "body" that [serializeOnlyFields] reads, that
    is the event's own unless the configured add_fields carry one, is a
    string that [strings.Split] cuts into 30 to 34 pieces, the function
    panics on an index out of range: it returns neither bytes nor an
    error, and logs nothing. *)
Theorem serializeOnlyFields_panics_on_30_to_34_tokens c event w m str :
  heap w !! Fields event = Some m →
  body_read c m = Some (VString str) →
  (30 ≤ length (Split_space str) ≤ 34)%nat →
  result (serializeOnlyFields lib c event w) = None ∧
  effects (serializeOnlyFields lib c event w) = [].
Proof.
  intros Hm Hbody [Hlo Hhi].
  rewrite (serializeOnlyFields_string _ c event w m str Hm Hbody).
  set (l := Fields event). set (slice := Split_space str) in *.
  set (w1 := set_map l _ w).
  assert (Hfixed : Forall (λ p, (p.2 < length slice)%nat) fixed_tokens).
  { unfold fixed_tokens. repeat (constructor; [simpl; lia |]). constructor. }
  rewrite (assign_tokens_run l slice fixed_tokens _ w1 _
             (heap_set_map l _ w) Hfixed).
  set (w2 := set_map l _ w1).
  assert (Hw2 : ∃ m2, heap w2 !! l = Some m2) by (eexists; apply heap_set_map).
  destruct Hw2 as [m2 Hw2].
  rewrite result_bind, effects_bind.
  destruct (decide (29 < length slice)%nat) as [_ | ?]; [| lia].
  destruct (decide (length slice ≤ 32)%nat) as [Hshort | Hlong].
  - destruct (assign_tokens_panic l slice extra_tokens
                (assign_token l "bytes" slice 34) w2 m2 Hw2) as [-> ->]; [| done].
    unfold extra_tokens. apply Exists_cons.
    destruct (decide (length slice ≤ 30)%nat); [by left | right].
    apply Exists_cons. left. simpl. lia.
  - rewrite (assign_tokens_run l slice extra_tokens _ w2 m2 Hw2).
    + by rewrite assign_token_out_of_range by lia.
    + unfold extra_tokens. repeat (constructor; [simpl; lia |]). constructor.
Qed.

(** C10 (amended): [serializeOnlyFields] never takes the branch that logs
    "slice error" and returns the lookup error; and when the "body" that
    it reads, that is the event's own unless the configured add_fields
    carry one, is missing or is not a string (or the event's field map is
    nil), the function panics at the type assertion that stands before
    that branch: nothing is logged and nothing is returned. *)
Theorem serializeOnlyFields_panics_without_string_body c event w :
  (∀ e, Log LError "slice error: " e ∉ effects (serializeOnlyFields lib c event w)) ∧
  ((∀ m str, heap w !! Fields event = Some m →
             body_read c m ≠ Some (VString str)) →
   result (serializeOnlyFields lib c event w) = None ∧
   effects (serializeOnlyFields lib c event w) = []).
Proof.
  split.
  - intros e Hin.
    assert (Hall : effects_all (λ e', ∀ e, e' ≠ Log LError "slice error: " e)
                     (serializeOnlyFields lib c event)).
    { apply effects_all_serializeOnlyFields. intros e1 e2. discriminate. }
    exact (proj1 (Forall_forall _ _) (Hall w) _ Hin e eq_refl).
  - intros Hbody. destruct (heap w !! Fields event) as [m |] eqn:Hm.
    + by rewrite (serializeOnlyFields_no_string _ c event w m Hm
                    (λ s, Hbody m s eq_refl)).
    + by rewrite (serializeOnlyFields_nil_map _ c event w Hm).
Qed.
End SerializerClaims.

(** An event whose own body has 30 pieces panics under a configuration
    without add_fields. *)
Lemma serializeOnlyFields_panics_on_30_to_34_tokens_witness :
  result (serializeOnlyFields lib_lenient conf_plain event1
            (world_with {[ "body" := VString line30 ]})) = None ∧
  effects (serializeOnlyFields lib_lenient conf_plain event1
             (world_with {[ "body" := VString line30 ]})) = [].
Proof.
  apply (serializeOnlyFields_panics_on_30_to_34_tokens lib_lenient conf_plain
           event1 (world_with {[ "body" := VString line30 ]})
           {[ "body" := VString line30 ]} line30).
  - reflexivity.
  - vm_compute. reflexivity.
  - vm_compute. lia.
Defined.

(** C9 as stated fails: the event's own body has 30 pieces, but the
    configured add_fields overwrite it with a line of 35 before it is
    read; the function does not panic: the event is serialized, or, when
    [json.Marshal] fails, a serialization error is returned. *)
Lemma serializeOnlyFields_30_tokens_overridden :
  heap (world_with {[ "body" := VString line30 ]}) !! Fields event1
    = Some {[ "body" := VString line30 ]} ∧
  length (Split_space line30) = 30%nat ∧
  result (serializeOnlyFields lib_lenient conf_body_added event1
            (world_with {[ "body" := VString line30 ]}))
    = Some (inl (text "{}")) ∧
  result (serializeOnlyFields lib_no_json conf_body_added event1
            (world_with {[ "body" := VString line30 ]}))
    = Some (inr (External "json: unsupported value")).
Proof. vm_compute. done. Qed.

(** An event without a body panics under a configuration without
    add_fields. *)
Lemma serializeOnlyFields_panics_without_string_body_witness :
  result (serializeOnlyFields lib_lenient conf_plain event1 (world_with ∅)) = None ∧
  effects (serializeOnlyFields lib_lenient conf_plain event1 (world_with ∅)) = [].
Proof.
  apply (proj2 (serializeOnlyFields_panics_without_string_body lib_lenient
                  conf_plain event1 (world_with ∅))).
  intros m str Hm. vm_compute in Hm. injection Hm as <-.
  vm_compute. discriminate.
Defined.

(** C10 as stated fails: the event has no "body" at all, but the
    configured add_fields supply one of 35 pieces; the function does not
    panic: the event is serialized, or, when [json.Marshal] fails, a
    serialization error is returned. *)
Lemma serializeOnlyFields_missing_body_supplied :
  heap (world_with ∅) !! Fields event1 = Some ∅ ∧
  (∅ : gmap string Value) !! "body" = None ∧
  result (serializeOnlyFields lib_lenient conf_body_added event1 (world_with ∅))
    = Some (inl (text "{}")) ∧
  result (serializeOnlyFields lib_no_json conf_body_added event1 (world_with ∅))
    = Some (inr (External "json: unsupported value")).
Proof. vm_compute. done. Qed.

(** ** getReq and send *)

Lemma bind_run {A B} (m : M A) (k : A → M B) w a w' es :
  m w = mkRun (Some a) w' es →
  bind m k w = mkRun (result (k a w')) (final (k a w')) (es ++ effects (k a w')).
Proof. intros H. unfold bind. by rewrite H. Qed.

Section SendFacts.
Variable lib : Lib.

(** [getReq] always returns, and does nothing that is seen outside. *)
Lemma getReq_returns out data w :
  ∃ r, getReq lib out data w = mkRun (Some r) (final (getReq lib out data w)) [].
Proof.
  unfold getReq, reqPool_Get, bind.
  destruct (reqPool out (ticks w) (idle w)) as [i|]; [destruct (idle w !! i) |];
    cbn [result final effects]; try destruct (reqPool_New _ _);
    cbn [result final effects ret app]; eauto.
Qed.

(** What a call of [send] does, by what [getReq] and the remote answer. *)
Lemma send_run out data w :
  match result (getReq lib out data w) with
  | Some (inr e) =>
      send lib out data w = mkRun (Some (Some e)) (final (getReq lib out data w)) []
  | Some (inl req) =>
      let w1 := final (getReq lib out data w) in
      match client out (ticks w1) req with
      | DoError n e =>
          send lib out data w =
          mkRun (Some (Some e)) (final (putReq (drained n req) (tick w1)))
            [ClientDo req; PoolPut (drained n req)]
      | DoResponse n resp =>
          send lib out data w =
          mkRun (Some (status_error resp))
            (final (putReq (drained n req) (tick w1)))
            ([ClientDo req; BodyClose] ++ close_log resp ++ [PoolPut (drained n req)])
      end
  | None => False
  end.
Proof.
  destruct (getReq_returns out data w) as [r Hg].
  assert (Hr : result (getReq lib out data w) = Some r) by (by rewrite Hg).
  rewrite Hr. unfold send. rewrite (bind_silent _ _ w r _ Hg).
  destruct r as [req | e]; [| reflexivity].
  cbv zeta.
  rewrite (bind_run (client_Do out req) _ _ _ _ _ eq_refl).
  destruct (client out _ req) as [n e | n resp]; [reflexivity |].
  unfold defer, bind, emit, log, emit, putReq, close_log, status_error.
  destruct (BodyCloseErr resp); cbn [result final effects];
    destruct (decide (StatusCode resp ≠ 200%Z)); reflexivity.
Qed.

(** C5: [send] always returns, and it returns an error exactly when the
    request could not be issued ([getReq] failed on the pool, or
    [client.Do] returned an error) or the response status is not 200;
    every status other than 200 gives the error "bad response code". *)
Theorem send_error_iff out data w :
  (∃ r, result (send lib out data w) = Some r) ∧
  ((∃ err, result (send lib out data w) = Some (Some err)) ↔
   (∃ err, result (getReq lib out data w) = Some (inr err)) ∨
   (∃ req, result (getReq lib out data w) = Some (inl req) ∧
      match client out (ticks (final (getReq lib out data w))) req with
      | DoError _ _ => True
      | DoResponse _ resp => StatusCode resp ≠ 200%Z
      end)) ∧
  (∀ req n resp,
     result (getReq lib out data w) = Some (inl req) →
     client out (ticks (final (getReq lib out data w))) req = DoResponse n resp →
     StatusCode resp ≠ 200%Z →
     result (send lib out data w) = Some (Some (BadResponseCode (StatusCode resp)))).
Proof.
  pose proof (send_run out data w) as Hrun.
  destruct (result (getReq lib out data w)) as [[req | e] |] eqn:Hg; [| | done].
  - cbv zeta in Hrun.
    destruct (client out _ req) as [n e | n resp] eqn:Hdo; rewrite Hrun; cbn [result].
    + split; [eauto |]. split.
      * split; [intros _; right; exists req; by rewrite Hdo | eauto].
      * intros req' n' resp' [= <-] Hd. congruence.
    + unfold status_error.
      destruct (decide (StatusCode resp ≠ 200%Z)) as [Hbad | Hok].
      * split; [eauto |]. split.
        -- split; [intros _; right; exists req; by rewrite Hdo | eauto].
        -- intros req' n' resp' [= <-] Hd. congruence.
      * split; [eauto |]. split.
        -- split; [by intros [? [=]] |].
           intros [[? [=]] | (req' & [= <-] & Hd)]. by rewrite Hdo in Hd.
        -- intros req' n' resp' [= <-] Hd Hs. rewrite Hdo in Hd.
           injection Hd as <- <-. done.
  - rewrite Hrun. cbn [result]. split; [eauto |]. split.
    + split; [intros _; left; eauto | eauto].
    + intros ? ? ? [=].
Qed.

(** C6: whenever [client.Do] hands [send] a response, of whatever status,
    [send] closes the body of the response after the call and before the
    deferred return of the request; a failure to close is logged as a
    warning and has no part in what [send] returns, which the status
    alone decides: no error for 200. *)
Theorem send_closes_body out data w req n resp :
  result (getReq lib out data w) = Some (inl req) →
  client out (ticks (final (getReq lib out data w))) req = DoResponse n resp →
  effects (send lib out data w) =
    [ClientDo req; BodyClose] ++ close_log resp ++ [PoolPut (drained n req)] ∧
  result (send lib out data w) = Some (status_error resp) ∧
  (StatusCode resp = 200%Z → result (send lib out data w) = Some None).
Proof.
  intros Hg Hdo. pose proof (send_run out data w) as Hrun.
  rewrite Hg in Hrun. cbv zeta in Hrun. rewrite Hdo in Hrun. rewrite Hrun.
  cbn [result effects]. split; [done |]. split; [done |].
  intros H200. unfold status_error. by destruct (decide _).
Qed.
End SendFacts.

(** The remote answers 200 to "sticky" and the body fails to close: the
    body is closed, the failure is logged, and [send] returns no error. *)
Lemma send_closes_body_witness :
  ∃ req,
    effects (send lib_lenient out_codec (text "sticky") (world_with ∅)) =
      [ClientDo req; BodyClose] ++
      close_log (mkResponse 200 (Some (External "close"))) ++
      [PoolPut (drained 3 req)] ∧
    result (send lib_lenient out_codec (text "sticky") (world_with ∅)) =
      Some (status_error (mkResponse 200 (Some (External "close")))) ∧
    (StatusCode (mkResponse 200 (Some (External "close"))) = 200%Z →
     result (send lib_lenient out_codec (text "sticky") (world_with ∅)) = Some None).
Proof.
  eexists.
  apply (send_closes_body lib_lenient out_codec (text "sticky") (world_with ∅)).
  - reflexivity.
  - reflexivity.
Defined.

(** ** The request pool *)

Section PoolFacts.
Variable lib : Lib.

Lemma getReq_from_item out data w item w' :
  reqPool_Get lib out w = mkRun (Some item) w' [] →
  getReq lib out data w =
  mkRun (Some match item with
              | ItemRequest req =>
                  let req := set_Body req data in
                  let req := Header_Set req "User-Agent" ("beat " +:+ Version (beat out)) in
                  let req := Header_Set req "Content-Type" "application/json" in
                  inl (if decide (Username (conf out) ≠ "")
                       then SetBasicAuth lib req (Username (conf out)) (Password (conf out))
                       else req)
              | ItemError err => inr err
              | ItemOther => inr PoolAssertionError
              end) w' [].
Proof.
  intros H. unfold getReq. rewrite (bind_silent _ _ w item w' H).
  by destruct item.
Qed.

Lemma reqPool_Get_cases out w :
  (∃ i req, idle w !! i = Some req ∧
     reqPool_Get lib out w =
     mkRun (Some (ItemRequest req)) (mkWorld (heap w) (delete i (idle w)) (S (ticks w))) []) ∨
  reqPool_Get lib out w = mkRun (Some (reqPool_New lib out)) (tick w) [].
Proof.
  unfold reqPool_Get.
  destruct (reqPool out (ticks w) (idle w)) as [i|]; [| by right].
  destruct (idle w !! i) as [req|] eqn:Hi; [left; eauto | by right].
Qed.




End PoolFacts.


(** ** Publish *)

Lemma batch_calls_app es1 es2 :
  batch_calls (es1 ++ es2) = batch_calls es1 ++ batch_calls es2.
Proof. apply omap_app. Qed.

Lemma observer_calls_app es1 es2 :
  observer_calls (es1 ++ es2) = observer_calls es1 ++ observer_calls es2.
Proof. apply omap_app. Qed.

Lemma sends_app es1 es2 : sends (es1 ++ es2) = sends es1 ++ sends es2.
Proof. apply omap_app. Qed.

Lemma logs_views es :
  Forall is_log es → batch_calls es = [] ∧ sends es = [].
Proof.
  induction 1 as [| e es He _ [IH1 IH2]]; [done |].
  by destruct e.
Qed.

Lemma observer_of_batch_calls es :
  observer_calls es = observer_calls (batch_calls es).
Proof.
  unfold observer_calls, batch_calls.
  induction es as [| e es IH]; [done |]. destruct e; cbn; congruence.
Qed.

Lemma bind_result {A B} (m : M A) (k : A → M B) w a :
  result (m w) = Some a →
  bind m k w =
  mkRun (result (k a (final (m w)))) (final (k a (final (m w))))
    (effects (m w) ++ effects (k a (final (m w)))).
Proof. intros H. unfold bind. by rewrite H. Qed.

Section PublishFacts.
Variable lib : Lib.

Lemma send_views out data w :
  batch_calls (effects (send lib out data w)) = [] ∧
  (length (sends (effects (send lib out data w))) ≤ 1)%nat ∧
  (result (send lib out data w) = Some None →
   length (sends (effects (send lib out data w))) = 1%nat).
Proof.
  pose proof (send_run lib out data w) as Hrun.
  destruct (result (getReq lib out data w)) as [[req | e] |]; [| | done].
  - cbv zeta in Hrun. destruct (client out _ req) as [n e | n resp];
      rewrite Hrun; cbn [result effects].
    + cbn. split; [done |]. split; [lia | done].
    + unfold close_log. destruct (BodyCloseErr resp); cbn; (split; [done |]);
        (split; [lia | done]).
  - rewrite Hrun. cbn. split; [done |]. split; [lia | done].
Qed.

Lemma deliver_all_views out evs :
  quiet_serializer out → ∀ w w' es,
  deliver_all lib out evs w = Some (w', es) →
  batch_calls es = [] ∧ length (sends es) = length evs.
Proof.
  intros Hq. induction evs as [| event evs IH]; intros w w' es Hd.
  - by injection Hd as <- <-.
  - cbn [deliver_all] in Hd.
    destruct (result (serialize out event w)) as [[data | ?] |]; [| done | done].
    destruct (result (send lib out data _)) as [[?|] |] eqn:Hs; [done | | done].
    destruct (deliver_all lib out evs _) as [[w2 es2] |] eqn:Hrest; [| done].
    injection Hd as <- <-.
    destruct (IH _ _ _ Hrest) as [IHb IHs].
    destruct (logs_views _ (Hq event w)) as [Hb1 Hs1].
    destruct (send_views out data (final (serialize out event w))) as (Hb2 & _ & Hs2).
    rewrite !batch_calls_app, !sends_app, Hb1, Hb2, IHb, Hs1.
    split; [done |]. rewrite !length_app, (Hs2 Hs), IHs. done.
Qed.

Lemma Publish_loop_delivered out events pre rest : ∀ w w1 es,
  deliver_all lib out pre w = Some (w1, es) →
  Publish_loop lib out events (pre ++ rest) w =
  mkRun (result (Publish_loop lib out events rest w1))
        (final (Publish_loop lib out events rest w1))
        (es ++ effects (Publish_loop lib out events rest w1)).
Proof.
  induction pre as [| event pre IH]; intros w w1 es Hd.
  - injection Hd as <- <-. cbn. by rewrite run_eta.
  - cbn [deliver_all] in Hd. cbn [app Publish_loop].
    destruct (result (serialize out event w)) as [[data | ?] |] eqn:Hser;
      [| done | done].
    destruct (result (send lib out data _)) as [[?|] |] eqn:Hs; [done | | done].
    destruct (deliver_all lib out pre _) as [[w2 es2] |] eqn:Hrest; [| done].
    injection Hd as <- <-.
    rewrite (bind_result _ _ _ _ Hser). rewrite (bind_result _ _ _ _ Hs).
    rewrite (IH _ _ _ Hrest). cbn [result final effects].
    by rewrite !(assoc_L (++)).
Qed.

Lemma Publish_loop_serialize_fails out events event rest w err :
  result (serialize out event w) = Some (inr err) →
  Publish_loop lib out events (event :: rest) w =
  mkRun (Some None) (final (serialize out event w))
    (effects (serialize out event w) ++
     [Log (severity event) "Failed to serialize the event: %+v" (Some err);
      Log LDebug "Failed event: %v" None;
      BatchRetryEvents events;
      ObsFailed (length events)]).
Proof.
  intros Hser. cbn [Publish_loop]. rewrite (bind_result _ _ _ _ Hser).
  unfold log_by_guarantee, severity. by destruct (Guaranteed event).
Qed.

Lemma Publish_loop_send_fails out events event rest w data err :
  result (serialize out event w) = Some (inl data) →
  result (send lib out data (final (serialize out event w))) = Some (Some err) →
  Publish_loop lib out events (event :: rest) w =
  mkRun (Some None) (final (send lib out data (final (serialize out event w))))
    (effects (serialize out event w) ++
     effects (send lib out data (final (serialize out event w))) ++
     [Log (severity event) "Writing event to http failed with: %+v" (Some err);
      ObsFailed (length events)]).
Proof.
  intros Hser Hsend. cbn [Publish_loop]. rewrite (bind_result _ _ _ _ Hser).
  rewrite (bind_result _ _ _ _ Hsend).
  unfold log_by_guarantee, severity. by destruct (Guaranteed event).
Qed.

Lemma Publish_nonempty out events w :
  events ≠ [] →
  Publish lib out (mkBatch events) w =
  mkRun (result (Publish_loop lib out events events w))
        (final (Publish_loop lib out events events w))
        (ObsNewBatch (length events) :: effects (Publish_loop lib out events events w)).
Proof.
  intros Hne. unfold Publish. cbn [Events].
  rewrite (bind_run _ _ w tt w [ObsNewBatch (length events)] eq_refl).
  destruct (decide (length events = 0)) as [H0 | _]; [| done].
  by destruct events.
Qed.

(** What [Publish] does when the first failure of the batch is the
    serialization of [event]. *)
Lemma Publish_serialize_fails_run out pre event post w w1 es err :
  deliver_all lib out pre w = Some (w1, es) →
  result (serialize out event w1) = Some (inr err) →
  Publish lib out (mkBatch (pre ++ event :: post)) w =
  mkRun (Some None) (final (serialize out event w1))
    (ObsNewBatch (length (pre ++ event :: post)) ::
     es ++ effects (serialize out event w1) ++
     [Log (severity event) "Failed to serialize the event: %+v" (Some err);
      Log LDebug "Failed event: %v" None;
      BatchRetryEvents (pre ++ event :: post);
      ObsFailed (length (pre ++ event :: post))]).
Proof.
  intros Hpre Hser.
  rewrite Publish_nonempty by (by destruct pre).
  rewrite (Publish_loop_delivered out _ pre (event :: post) w w1 es Hpre).
  by rewrite (Publish_loop_serialize_fails out _ event post w1 err Hser).
Qed.

(** What [Publish] does when the first failure of the batch is the
    sending of [event]. *)
Lemma Publish_send_fails_run out pre event post w w1 es data err :
  deliver_all lib out pre w = Some (w1, es) →
  result (serialize out event w1) = Some (inl data) →
  result (send lib out data (final (serialize out event w1))) = Some (Some err) →
  Publish lib out (mkBatch (pre ++ event :: post)) w =
  mkRun (Some None) (final (send lib out data (final (serialize out event w1))))
    (ObsNewBatch (length (pre ++ event :: post)) ::
     es ++ effects (serialize out event w1) ++
     effects (send lib out data (final (serialize out event w1))) ++
     [Log (severity event) "Writing event to http failed with: %+v" (Some err);
      ObsFailed (length (pre ++ event :: post))]).
Proof.
  intros Hpre Hser Hsend.
  rewrite Publish_nonempty by (by destruct pre).
  rewrite (Publish_loop_delivered out _ pre (event :: post) w w1 es Hpre).
  by rewrite (Publish_loop_send_fails out _ event post w1 data err Hser Hsend).
Qed.
End PublishFacts.

Section PublishClaims.
Variable lib : Lib.
Variables (b : beatInfo) (cd : Codec) (cl : nat → Request → DoResult).
Variables (pool : nat → list Request → option nat) (c : config).

Local Abbreviation out := (makeHTTP lib b cd cl pool c).

Lemma makeHTTP_quiet : quiet_serializer out.
Proof. intros event. apply only_logs_makeHTTP. Qed.

(** C1: for a batch that is not empty and whose events are all
    serialized and sent without error, the calls [Publish] makes on the
    batch and the observer are, in order, [NewBatch(n)], one [ACK] and
    [Acked(n)], with [n] the number of events: [ACK] exactly once,
    [RetryEvents] never; one request is sent per event, and [Publish]
    returns nil. *)
Theorem Publish_acks_when_all_sent events w w' es :
  events ≠ [] →
  deliver_all lib out events w = Some (w', es) →
  result (Publish lib out (mkBatch events) w) = Some None ∧
  batch_calls (effects (Publish lib out (mkBatch events) w)) =
    [ObsNewBatch (length events); BatchACK; ObsAcked (length events)] ∧
  length (sends (effects (Publish lib out (mkBatch events) w))) = length events.
Proof.
  intros Hne Hall.
  destruct (deliver_all_views lib out events makeHTTP_quiet w w' es Hall)
    as [Hcalls Hsends].
  rewrite (Publish_nonempty lib out events w Hne).
  pose proof (Publish_loop_delivered lib out events events [] w w' es Hall) as Hloop.
  rewrite app_nil_r in Hloop. rewrite Hloop. cbn [result effects].
  split; [done |]. split.
  - change (ObsNewBatch (length events) :: ?l)
      with ([ObsNewBatch (length events)] ++ l).
    rewrite !batch_calls_app, Hcalls. done.
  - change (ObsNewBatch (length events) :: ?l)
      with ([ObsNewBatch (length events)] ++ l).
    rewrite !sends_app, !length_app, Hsends. cbn. lia.
Qed.

(** C2: when the events before the N-th are serialized and sent, the N-th
    is serialized, and its [send] returns an error (no connection, a
    status other than 200, or no request from the pool), the calls
    [Publish] makes on the batch and the observer are [NewBatch(n)] and
    [Failed(n)], with [n] the size of the whole batch: neither [ACK] nor
    [RetryEvents]; the requests sent are those of the first N events and
    none after, at most N of them. *)
Theorem Publish_send_failure pre event post w w1 es data err :
  deliver_all lib out pre w = Some (w1, es) →
  result (serialize out event w1) = Some (inl data) →
  result (send lib out data (final (serialize out event w1))) = Some (Some err) →
  result (Publish lib out (mkBatch (pre ++ event :: post)) w) = Some None ∧
  batch_calls (effects (Publish lib out (mkBatch (pre ++ event :: post)) w)) =
    [ObsNewBatch (length (pre ++ event :: post));
     ObsFailed (length (pre ++ event :: post))] ∧
  sends (effects (Publish lib out (mkBatch (pre ++ event :: post)) w)) =
    sends es ++ sends (effects (send lib out data (final (serialize out event w1)))) ∧
  (length (sends (effects (Publish lib out (mkBatch (pre ++ event :: post)) w)))
     ≤ S (length pre))%nat.
Proof.
  intros Hpre Hser Hsend.
  destruct (deliver_all_views lib out pre makeHTTP_quiet w w1 es Hpre)
    as [Hcalls Hsends].
  destruct (logs_views _ (makeHTTP_quiet event w1)) as [Hcalls1 Hsends1].
  destruct (send_views lib out data (final (serialize out event w1)))
    as (Hcalls2 & Hsends2 & _).
  rewrite (Publish_send_fails_run lib out pre event post w w1 es data err
             Hpre Hser Hsend).
  cbn [result effects].
  change (ObsNewBatch ?n :: ?l) with ([ObsNewBatch n] ++ l).
  rewrite !batch_calls_app, !sends_app, Hcalls, Hcalls1, Hcalls2, Hsends1.
  change (sends [ObsNewBatch ?n]) with (@nil Request).
  change (sends [Log ?l ?m ?e; ObsFailed ?n]) with (@nil Request).
  rewrite app_nil_r. cbn [app].
  split; [done |]. split; [done |]. split; [done |].
  rewrite length_app, Hsends. lia.
Qed.

(** C3: when the events before the N-th are serialized and sent and the
    serialization of the N-th returns an error, the calls [Publish] makes
    on the batch and the observer are [NewBatch(n)], one [RetryEvents]
    with the whole slice of the batch, and [Failed(n)]: [ACK] never; the
    requests sent are those of the N-1 events before, one each, so none
    for the failed event or a later one. *)
Theorem Publish_serialize_failure pre event post w w1 es err :
  deliver_all lib out pre w = Some (w1, es) →
  result (serialize out event w1) = Some (inr err) →
  result (Publish lib out (mkBatch (pre ++ event :: post)) w) = Some None ∧
  batch_calls (effects (Publish lib out (mkBatch (pre ++ event :: post)) w)) =
    [ObsNewBatch (length (pre ++ event :: post));
     BatchRetryEvents (Events (mkBatch (pre ++ event :: post)));
     ObsFailed (length (pre ++ event :: post))] ∧
  sends (effects (Publish lib out (mkBatch (pre ++ event :: post)) w)) = sends es ∧
  length (sends es) = length pre.
Proof.
  intros Hpre Hser.
  destruct (deliver_all_views lib out pre makeHTTP_quiet w w1 es Hpre)
    as [Hcalls Hsends].
  destruct (logs_views _ (makeHTTP_quiet event w1)) as [Hcalls1 Hsends1].
  rewrite (Publish_serialize_fails_run lib out pre event post w w1 es err Hpre Hser).
  cbn [result effects Events].
  change (ObsNewBatch ?n :: ?l) with ([ObsNewBatch n] ++ l).
  rewrite !batch_calls_app, !sends_app, Hcalls, Hcalls1, Hsends1.
  change (sends [ObsNewBatch ?n]) with (@nil Request).
  change (sends [Log ?l ?m ?e; Log ?l' ?m' ?e'; BatchRetryEvents ?evs; ObsFailed ?n])
    with (@nil Request).
  rewrite app_nil_r. cbn [app].
  split; [done |]. split; [done |]. done.
Qed.

(** C4 (amended): when the events before the N-th are serialized and sent
    and the serialization of the N-th returns an error, [Publish] hands
    the whole batch to [RetryEvents], and what it tells the observer for
    the batch is [NewBatch(n)] and then [Failed(n)]. *)
Theorem Publish_reports_failed_after_retry pre event post w w1 es err :
  deliver_all lib out pre w = Some (w1, es) →
  result (serialize out event w1) = Some (inr err) →
  observer_calls (effects (Publish lib out (mkBatch (pre ++ event :: post)) w)) =
    [ObsNewBatch (length (pre ++ event :: post));
     ObsFailed (length (pre ++ event :: post))] ∧
  BatchRetryEvents (pre ++ event :: post)
    ∈ effects (Publish lib out (mkBatch (pre ++ event :: post)) w).
Proof.
  intros Hpre Hser.
  destruct (deliver_all_views lib out pre makeHTTP_quiet w w1 es Hpre)
    as [Hcalls Hsends].
  destruct (logs_views _ (makeHTTP_quiet event w1)) as [Hcalls1 Hsends1].
  rewrite (Publish_serialize_fails_run lib out pre event post w w1 es err Hpre Hser).
  cbn [effects]. split.
  - rewrite observer_of_batch_calls.
    change (ObsNewBatch ?n :: ?l) with ([ObsNewBatch n] ++ l).
    by rewrite !batch_calls_app, Hcalls, Hcalls1.
  - rewrite elem_of_cons, !elem_of_app, !elem_of_cons. naive_solver.
Qed.
End PublishClaims.

(** Two events with a message each, a remote that answers 200. *)
Lemma Publish_acks_when_all_sent_witness :
  result (Publish lib_lenient out_codec (mkBatch [event1; event2])
            (world_of (msg "a") (msg "b") ∅)) = Some None ∧
  batch_calls (effects (Publish lib_lenient out_codec (mkBatch [event1; event2])
                          (world_of (msg "a") (msg "b") ∅))) =
    [ObsNewBatch 2; BatchACK; ObsAcked 2] ∧
  length (sends (effects (Publish lib_lenient out_codec (mkBatch [event1; event2])
                            (world_of (msg "a") (msg "b") ∅)))) = 2%nat.
Proof.
  eapply (Publish_acks_when_all_sent lib_lenient beat_sample codec_message
            remote_sample pool_first conf_codec [event1; event2]
            (world_of (msg "a") (msg "b") ∅)).
  - discriminate.
  - reflexivity.
Defined.

(** Three events of which the second is answered with 500. *)
Lemma Publish_send_failure_witness :
  ∃ es w1 data,
    result (Publish lib_lenient out_codec (mkBatch ([event1] ++ event2 :: [event3]))
              (world_of (msg "a") (msg "boom") (msg "c"))) = Some None ∧
    batch_calls
      (effects (Publish lib_lenient out_codec (mkBatch ([event1] ++ event2 :: [event3]))
                  (world_of (msg "a") (msg "boom") (msg "c")))) =
      [ObsNewBatch (length ([event1] ++ event2 :: [event3]));
       ObsFailed (length ([event1] ++ event2 :: [event3]))] ∧
    sends
      (effects (Publish lib_lenient out_codec (mkBatch ([event1] ++ event2 :: [event3]))
                  (world_of (msg "a") (msg "boom") (msg "c")))) =
      sends es ++
      sends (effects (send lib_lenient out_codec data
                        (final (serialize out_codec event2 w1)))) ∧
    (length
       (sends
          (effects (Publish lib_lenient out_codec
                      (mkBatch ([event1] ++ event2 :: [event3]))
                      (world_of (msg "a") (msg "boom") (msg "c")))))
     ≤ S (length [event1]))%nat.
Proof.
  eexists _, _, _.
  eapply (Publish_send_failure lib_lenient beat_sample codec_message
            remote_sample pool_first conf_codec [event1] event2 [event3]
            (world_of (msg "a") (msg "boom") (msg "c"))).
  - reflexivity.
  - reflexivity.
  - reflexivity.
Defined.

(** Three events of which the second has no message to encode. *)
Lemma Publish_serialize_failure_witness :
  ∃ es,
    result (Publish lib_lenient out_codec (mkBatch ([event1] ++ event2 :: [event3]))
              (world_of (msg "a") ∅ (msg "c"))) = Some None ∧
    batch_calls
      (effects (Publish lib_lenient out_codec (mkBatch ([event1] ++ event2 :: [event3]))
                  (world_of (msg "a") ∅ (msg "c")))) =
      [ObsNewBatch (length ([event1] ++ event2 :: [event3]));
       BatchRetryEvents (Events (mkBatch ([event1] ++ event2 :: [event3])));
       ObsFailed (length ([event1] ++ event2 :: [event3]))] ∧
    sends
      (effects (Publish lib_lenient out_codec (mkBatch ([event1] ++ event2 :: [event3]))
                  (world_of (msg "a") ∅ (msg "c")))) = sends es ∧
    length (sends es) = length [event1].
Proof.
  eexists.
  eapply (Publish_serialize_failure lib_lenient beat_sample codec_message
            remote_sample pool_first conf_codec [event1] event2 [event3]
            (world_of (msg "a") ∅ (msg "c"))).
  - reflexivity.
  - reflexivity.
Defined.

Lemma Publish_reports_failed_after_retry_witness :
  observer_calls
    (effects (Publish lib_lenient out_codec (mkBatch ([event1] ++ event2 :: [event3]))
                (world_of (msg "a") ∅ (msg "c")))) =
    [ObsNewBatch (length ([event1] ++ event2 :: [event3]));
     ObsFailed (length ([event1] ++ event2 :: [event3]))] ∧
  BatchRetryEvents ([event1] ++ event2 :: [event3])
    ∈ effects (Publish lib_lenient out_codec (mkBatch ([event1] ++ event2 :: [event3]))
                 (world_of (msg "a") ∅ (msg "c"))).
Proof.
  eapply (Publish_reports_failed_after_retry lib_lenient beat_sample codec_message
            remote_sample pool_first conf_codec [event1] event2 [event3]
            (world_of (msg "a") ∅ (msg "c"))).
  - reflexivity.
  - reflexivity.
Defined.

(** C4 as stated fails: the one event of the batch has no message, its
    serialization returns an error, the batch is handed to [RetryEvents],
    and the observer is told [Failed(1)]. *)
Lemma Publish_tells_observer_failed :
  result (serialize out_codec event2 (world_of (msg "a") ∅ (msg "c")))
    = Some (inr (External "no message")) ∧
  batch_calls (effects (Publish lib_lenient out_codec (mkBatch [event2])
                          (world_of (msg "a") ∅ (msg "c")))) =
    [ObsNewBatch 1; BatchRetryEvents [event2]; ObsFailed 1] ∧
  observer_calls (effects (Publish lib_lenient out_codec (mkBatch [event2])
                             (world_of (msg "a") ∅ (msg "c")))) =
    [ObsNewBatch 1; ObsFailed 1].
Proof. vm_compute. done. Qed.

(** ** The dialer *)

Section DialerFacts.
Variable n : Net.

(** On a list that is not empty the loop does not depend on the values
    [conn] and [err] hold on entry. *)
Lemma dial_range_entry network port k ip ips conn err :
  dial_range n network port k (ip :: ips) conn err =
  dial_range n network port k (ip :: ips) None None.
Proof. cbn [dial_range]. by destruct (Dialer_DialContext n k network _). Qed.

(** Addresses that refuse are dialed one after the other, and the loop
    goes on behind them. *)
Lemma dial_range_refused network port pre : ∀ k conn err ip ips,
  all_refused n network port k pre = true →
  dial_range n network port k (pre ++ ip :: ips) conn err =
  mkDialed
    (((λ a, JoinHostPort a port) <$> pre) ++
     attempts (dial_range n network port (k + length pre) (ip :: ips) None None))
    (dialed_conn (dial_range n network port (k + length pre) (ip :: ips) None None))
    (dialed_err (dial_range n network port (k + length pre) (ip :: ips) None None)).
Proof.
  induction pre as [| a pre IH]; intros k conn err ip ips Href.
  - cbn [app fmap list_fmap length]. rewrite Nat.add_0_r.
    rewrite dial_range_entry. by destruct (dial_range n network port k (ip :: ips) None None).
  - cbn [all_refused] in Href. cbn [app dial_range].
    destruct (Dialer_DialContext n k network (JoinHostPort a port)) as [? | e];
      [done |].
    rewrite (IH (S k) None (Some e) ip ips Href). cbn [attempts dialed_conn dialed_err].
    cbn [length fmap list_fmap]. by rewrite Nat.add_succ_r.
Qed.

(** C7 (amended): for an address that splits into host and port, the
    dialer asks the resolver for the host; if the resolver fails, that
    error is returned as it is and nothing is dialed; otherwise the
    addresses are dialed in the order returned, each joined with the
    port, up to the first that connects, whose connection is returned
    without error; and if every address refuses, the error that
    [net.Dialer] gave for the last attempt is returned as it is, with
    nothing wrapped around it. *)
Theorem DialContext_tries_in_order network addr host port :
  SplitHostPort n addr = inl (host, port) →
  (∀ e, LookupHost n host = inr e →
        DialContext n network addr = mkDialed [] None (Some e)) ∧
  (∀ pre ip post c,
     LookupHost n host = inl (pre ++ ip :: post) →
     all_refused n network port 0 pre = true →
     Dialer_DialContext n (length pre) network (JoinHostPort ip port) = inl c →
     DialContext n network addr =
     mkDialed ((λ a, JoinHostPort a port) <$> (pre ++ [ip])) (Some c) None) ∧
  (∀ pre ip e,
     LookupHost n host = inl (pre ++ [ip]) →
     all_refused n network port 0 pre = true →
     Dialer_DialContext n (length pre) network (JoinHostPort ip port) = inr e →
     DialContext n network addr =
     mkDialed ((λ a, JoinHostPort a port) <$> (pre ++ [ip])) None (Some e)).
Proof.
  intros Hsplit. unfold DialContext. rewrite Hsplit. repeat split.
  - by intros e ->.
  - intros pre ip post c -> Href Hdial.
    rewrite (dial_range_refused network port pre 0 None None ip post Href).
    cbn [dial_range Nat.add]. rewrite Hdial. cbn [attempts dialed_conn dialed_err].
    by rewrite fmap_app.
  - intros pre ip e -> Href Hdial.
    rewrite (dial_range_refused network port pre 0 None None ip [] Href).
    cbn [dial_range Nat.add]. rewrite Hdial. cbn [attempts dialed_conn dialed_err].
    by rewrite fmap_app.
Qed.
End DialerFacts.

(** "collector" resolves to 10.0.0.1, which refuses, and 10.0.0.2, which
    connects; "nowhere" does not resolve; both addresses of "dead"
    refuse. *)
Lemma DialContext_tries_in_order_witness :
  DialContext net_sample "tcp" "collector:8080" =
    mkDialed ["10.0.0.1:8080"; "10.0.0.2:8080"]
      (Some (mkConn "tcp" "10.0.0.2:8080")) None ∧
  DialContext net_sample "tcp" "nowhere:8080" =
    mkDialed [] None (Some (External "no such host")) ∧
  DialContext net_sample "tcp" "dead:8080" =
    mkDialed ["10.0.0.1:8080"; "10.0.0.3:8080"] None
      (Some (External "no route to host")).
Proof.
  split; [| split].
  - exact (proj1 (proj2 (DialContext_tries_in_order net_sample "tcp"
                           "collector:8080" "collector" "8080" eq_refl))
             ["10.0.0.1"] "10.0.0.2" [] (mkConn "tcp" "10.0.0.2:8080")
             eq_refl eq_refl eq_refl).
  - exact (proj1 (DialContext_tries_in_order net_sample "tcp"
                    "nowhere:8080" "nowhere" "8080" eq_refl)
             (External "no such host") eq_refl).
  - exact (proj2 (proj2 (DialContext_tries_in_order net_sample "tcp"
                           "dead:8080" "dead" "8080" eq_refl))
             ["10.0.0.1"] "10.0.0.3" (External "no route to host")
             eq_refl eq_refl eq_refl).
Defined.

(** C7 as stated fails: both addresses of "dead" refuse, and what the
    dialer returns is the very error [net.Dialer] gave for the second
    attempt, handed on like a resolver error, not a dial error wrapped
    around it. *)
Lemma DialContext_last_error_not_wrapped :
  LookupHost net_sample "dead" = inl ["10.0.0.1"; "10.0.0.3"] ∧
  all_refused net_sample "tcp" "8080" 0 ["10.0.0.1"; "10.0.0.3"] = true ∧
  Dialer_DialContext net_sample 1 "tcp" (JoinHostPort "10.0.0.3" "8080")
    = inr (External "no route to host") ∧
  dialed_err (DialContext net_sample "tcp" "dead:8080")
    = Some (External "no route to host") ∧
  LookupHost net_sample "nowhere" = inr (External "no such host") ∧
  dialed_err (DialContext net_sample "tcp" "nowhere:8080")
    = Some (External "no such host").
Proof. vm_compute. done. Qed.

(** ** The model at work *)

Example Split_space_empty : Split_space "" = [""].
Proof. reflexivity. Qed.

Example Split_space_double : Split_space "a  b " = ["a"; ""; "b"; ""].
Proof. reflexivity. Qed.

Example JoinHostPort_v6 : JoinHostPort "::1" "80" = "[::1]:80".
Proof. reflexivity. Qed.

(** A line of 35 pieces is serialized, and the event's own field map has
    the named fields afterwards. *)
Example serializeOnlyFields_35_pieces :
  result (serializeOnlyFields lib_lenient conf_plain event1
            (world_with {[ "body" := VString line35 ]})) = Some (inl (text "{}")) ∧
  heap (final (serializeOnlyFields lib_lenient conf_plain event1
                 (world_with {[ "body" := VString line35 ]}))) !! 1%positive
    ≫= (λ m, m !! "bytes") = Some (VString "t34").
Proof. vm_compute. done. Qed.

(** An empty batch is acknowledged at once; the observer hears of the
    batch only. *)
Lemma Publish_empty lib out w :
  Publish lib out (mkBatch []) w = mkRun (Some None) w [ObsNewBatch 0; BatchACK].
Proof. reflexivity. Qed.

(** A URL that [http.NewRequest] rejects: [send] returns that error and
    nothing is sent. *)
Example send_pool_failure :
  send lib_bad_url out_codec (text "a") (world_with ∅) =
  mkRun (Some (Some (External "parse url")))
    (tick (world_with ∅)) [].
Proof. reflexivity. Qed.

(** The slice handed to [RetryEvents] is the slice of the batch, but the
    field map of an event that was worked on is shared with it and has
    been written to. *)
Example retried_events_share_their_maps :
  batch_calls (effects (Publish lib_no_json out_fields_no_json (mkBatch [event1])
                          (world_with {[ "body" := VString line35 ]}))) =
    [ObsNewBatch 1; BatchRetryEvents [event1]; ObsFailed 1] ∧
  heap (final (Publish lib_no_json out_fields_no_json (mkBatch [event1])
                 (world_with {[ "body" := VString line35 ]}))) !! Fields event1
    ≫= (λ m, m !! "ifindex") = Some (VString "t3").
Proof. vm_compute. done. Qed.

(** A resolver that answers without an address leaves the dialer with
    neither a connection nor an error. *)
Example DialContext_no_address :
  DialContext net_no_address "tcp" "collector:8080" = mkDialed [] None None.
Proof. reflexivity. Qed.

(** * Further properties *)

(** ** maskPass *)

Lemma stars_length n : String.length (stars n) = n.
Proof.
  induction n as [| n IH]; [done |].
  change (stars (S n)) with (String "*" (stars n)). cbn [String.length]. by f_equal.
Qed.

Lemma stars_get n k : (k < n)%nat → String.get k (stars n) = Some "*"%char.
Proof.
  revert k. induction n as [| n IH]; intros k Hk; [lia |].
  change (stars (S n)) with (String "*" (stars n)).
  destruct k as [| k]; [done |]. cbn [String.get]. apply IH. lia.
Qed.

(** On bytes below 0x80 the range visits every byte, and replaces it or
    keeps it. *)
Lemma mask_range_ascii len s : ∀ i,
  is_ascii_string s = true →
  String.length (mask_range len i 0 s) = String.length s ∧
  ∀ k c, String.get k s = Some c →
    String.get k (mask_range len i 0 s) =
    Some (if (1 <? i + k)%nat && (i + k <? len - 2)%nat then "*"%char else c).
Proof.
  induction s as [| b s IH]; intros i Hs; [done |].
  cbn [is_ascii_string] in Hs. apply andb_prop in Hs as [Hb Hs].
  destruct (IH (S i) Hs) as [IHlen IHget].
  cbn [mask_range]. unfold rune_string, rune_width. rewrite Hb.
  cbn [fst Nat.sub take_string].
  change ("*" +:+ ?x) with (String "*" x).
  change (String b "" +:+ ?x) with (String b x).
  replace ((if (1 <? i)%nat && (i <? len - 2)%nat then "*" else String b "")
           +:+ mask_range len (S i) 0 s)
    with (String (if (1 <? i)%nat && (i <? len - 2)%nat then "*"%char else b)
            (mask_range len (S i) 0 s))
    by (by destruct ((1 <? i)%nat && (i <? len - 2)%nat)).
  split.
  - cbn [String.length]. by rewrite IHlen.
  - intros k c Hk. destruct k as [| k].
    + injection Hk as <-. by rewrite Nat.add_0_r.
    + cbn [String.get] in *. rewrite Nat.add_succ_r, <- Nat.add_succ_l.
      by apply IHget.
Qed.

Lemma get_lt k s c : String.get k s = Some c → (k < String.length s)%nat.
Proof.
  revert k. induction s as [| b s IH]; intros k Hk; [by destruct k |].
  destruct k as [| k]; cbn in *; [lia |]. apply IH in Hk. lia.
Qed.

(** X1: [maskPass] on a password of bytes below 0x80 keeps the length;
    a password of at most 8 bytes becomes stars only, a longer one keeps
    its first two and its last two bytes and has a star for every other. *)
Theorem maskPass_ascii password :
  is_ascii_string password = true →
  String.length (maskPass password) = String.length password ∧
  ∀ k c, String.get k password = Some c →
    String.get k (maskPass password) =
    Some (if revealed (String.length password) k then c else "*"%char).
Proof.
  intros Hascii. unfold maskPass, revealed.
  destruct (String.length password <=? 8)%nat eqn:Hlen.
  - apply Nat.leb_le in Hlen. split; [apply stars_length |].
    intros k c Hk. rewrite (proj2 (Nat.ltb_ge _ _) Hlen). cbn [andb].
    apply stars_get. by apply get_lt in Hk.
  - apply Nat.leb_gt in Hlen.
    destruct (mask_range_ascii (String.length password) password 0 Hascii)
      as [Hl Hg].
    split; [done |]. intros k c Hk. rewrite (Hg k c Hk).
    rewrite (proj2 (Nat.ltb_lt _ _) Hlen). cbn [andb Nat.add].
    apply get_lt in Hk.
    destruct (1 <? k)%nat eqn:H1, (k <? String.length password - 2)%nat eqn:H2,
             (k <? 2)%nat eqn:H3, (String.length password - 2 <=? k)%nat eqn:H4;
      try done;
      repeat match goal with
             | H : (_ <? _)%nat = true |- _ => apply Nat.ltb_lt in H
             | H : (_ <? _)%nat = false |- _ => apply Nat.ltb_ge in H
             | H : (_ <=? _)%nat = true |- _ => apply Nat.leb_le in H
             | H : (_ <=? _)%nat = false |- _ => apply Nat.leb_gt in H
             end; lia.
Qed.

(** ** The fields serializeOnlyFields writes *)

Lemma store_tokens_app slice t1 t2 m :
  store_tokens slice (t1 ++ t2) m = store_tokens slice t2 (store_tokens slice t1 m).
Proof. apply foldl_app. Qed.

Lemma store_tokens_other slice table : ∀ m k,
  k ∉ table.*1 → store_tokens slice table m !! k = m !! k.
Proof.
  unfold store_tokens.
  induction table as [| [name i] table IH]; intros m k Hk; [done |].
  cbn [foldl fst snd]. cbn [fmap list_fmap fst] in Hk.
  apply not_elem_of_cons in Hk as [Hne Hk].
  rewrite (IH _ _ Hk). by rewrite lookup_insert_ne.
Qed.

Lemma store_tokens_lookup slice table : ∀ m name i,
  NoDup table.*1 → (name, i) ∈ table →
  store_tokens slice table m !! name = Some (VString (default "" (slice !! i))).
Proof.
  induction table as [| [name' i'] table IH]; intros m name i Hnd Hin.
  - by apply elem_of_nil in Hin.
  - cbn [fmap list_fmap fst] in Hnd. apply NoDup_cons in Hnd as [Hfresh Hnd].
    change (store_tokens slice ((name', i') :: table) m)
      with (store_tokens slice table
              (<[name' := VString (default "" (slice !! i'))]> m)).
    apply elem_of_cons in Hin as [[= -> ->] | Hin].
    + rewrite (store_tokens_other _ _ _ _ Hfresh). apply lookup_insert_eq.
    + by apply IH.
Qed.

Lemma token_names_NoDup : NoDup token_names.
Proof. by apply (bool_decide_unpack _). Qed.

Lemma tokens_for_names slice k : k ∈ (tokens_for slice).*1 → k ∈ token_names.
Proof.
  unfold tokens_for, token_names. destruct (decide _); [done |].
  rewrite !fmap_app, !elem_of_app. auto.
Qed.

Lemma tokens_for_NoDup slice : NoDup (tokens_for slice).*1.
Proof.
  unfold tokens_for. destruct (decide _).
  - apply token_names_NoDup.
  - by apply (bool_decide_unpack _).
Qed.

Lemma tokens_for_in_range (slice : list string) :
  (length slice = 29 ∨ 35 ≤ length slice)%nat →
  Forall (λ p, (p.2 < length slice)%nat) (tokens_for slice).
Proof.
  intros Hlen. unfold tokens_for, fixed_tokens, extra_tokens.
  destruct (decide _); cbn [app];
    repeat (constructor; [simpl; lia |]); constructor.
Qed.

Section SerializerRuns.
Variable lib : Lib.

(** What the last step does. *)
Lemma marshal_fields_run l w m :
  heap w !! l = Some m →
  marshal_fields lib l w =
  mkRun (Some (json_Marshal lib m)) w
    match json_Marshal lib m with
    | inl _ => []
    | inr e => [Log LError "Serialization error: " (Some e)]
    end.
Proof.
  intros Hm. unfold marshal_fields.
  rewrite (bind_silent _ _ w m w (map_load_live l w m Hm)).
  by destruct (json_Marshal lib m).
Qed.

(** A line of 29 pieces, or of 35 and more, gets through the token
    assignments. *)
Lemma serializeOnlyFields_assigns c event w m str :
  heap w !! Fields event = Some m →
  body_read c m = Some (VString str) →
  (length (Split_space str) = 29 ∨ 35 ≤ length (Split_space str))%nat →
  serializeOnlyFields lib c event w =
  marshal_fields lib (Fields event)
    (set_map (Fields event)
       (store_tokens (Split_space str) (tokens_for (Split_space str))
          (fields_at_lookup c event m)) w).
Proof.
  intros Hm Hbody Hlen.
  rewrite (serializeOnlyFields_string lib c event w m str Hm Hbody).
  set (l := Fields event). set (slice := Split_space str) in *.
  assert (Hfixed : Forall (λ p, (p.2 < length slice)%nat) fixed_tokens).
  { unfold fixed_tokens. repeat (constructor; [simpl; lia |]). constructor. }
  rewrite (assign_tokens_run l slice fixed_tokens _ _ _ (heap_set_map l _ w) Hfixed).
  rewrite set_map_twice. unfold tokens_for.
  destruct (decide (29 < length slice)%nat) as [Hlong | Hshort].
  - assert (Hextra : Forall (λ p, (p.2 < length slice)%nat) extra_tokens).
    { unfold extra_tokens. repeat (constructor; [simpl; lia |]). constructor. }
    destruct (lookup_lt_is_Some_2 slice 34) as [tok Htok]; [lia |].
    rewrite (bind_silent _ _ _ tt
               (set_map l (store_tokens slice
                             (fixed_tokens ++ extra_tokens ++ [("bytes", 34%nat)])
                             (fields_at_lookup c event m)) w)); [done |].
    rewrite (assign_tokens_run l slice extra_tokens _ _ _ (heap_set_map l _ w) Hextra).
    rewrite set_map_twice.
    rewrite (assign_token_in_range l "bytes" slice 34 _ _ tok (heap_set_map l _ w) Htok).
    rewrite set_map_twice, !store_tokens_app.
    cbn [store_tokens foldl fst snd]. by rewrite Htok.
  - by rewrite (bind_silent (ret tt) _ _ tt _ eq_refl).
Qed.

(** X2: a "body" string of fewer than 29 pieces makes
    [serializeOnlyFields] panic on an index out of range among the
    assignments it always makes; nothing is returned or logged. *)
Theorem serializeOnlyFields_panics_on_short_line c event w m str :
  heap w !! Fields event = Some m →
  body_read c m = Some (VString str) →
  (length (Split_space str) < 29)%nat →
  result (serializeOnlyFields lib c event w) = None ∧
  effects (serializeOnlyFields lib c event w) = [].
Proof.
  intros Hm Hbody Hlen.
  rewrite (serializeOnlyFields_string lib c event w m str Hm Hbody).
  apply (assign_tokens_panic _ _ _ _ _ _ (heap_set_map _ _ w)).
  unfold fixed_tokens. rewrite !Exists_cons. do 16 right. left. simpl. lia.
Qed.

(** X3: for a "body" string of exactly 29 pieces, or of 35 and more,
    [serializeOnlyFields] returns what [json.Marshal] returns for the
    event's field map as the assignments leave it, bytes or error, and
    logs one error line exactly when it is an error. *)
Theorem serializeOnlyFields_returns_marshal c event w m str :
  heap w !! Fields event = Some m →
  body_read c m = Some (VString str) →
  (length (Split_space str) = 29 ∨ 35 ≤ length (Split_space str))%nat →
  ∃ m',
    heap (final (serializeOnlyFields lib c event w)) !! Fields event = Some m' ∧
    result (serializeOnlyFields lib c event w) = Some (json_Marshal lib m') ∧
    effects (serializeOnlyFields lib c event w) =
      match json_Marshal lib m' with
      | inl _ => []
      | inr e => [Log LError "Serialization error: " (Some e)]
      end.
Proof.
  intros Hm Hbody Hlen.
  rewrite (serializeOnlyFields_assigns c event w m str Hm Hbody Hlen).
  rewrite (marshal_fields_run _ _ _ (heap_set_map _ _ w)).
  eexists. split; [apply heap_set_map |]. by split.
Qed.

(** X4: after such a call the event's own field map holds, under every
    name the function assigns, the piece of the line with that index, and
    under every other key what the timestamp, the configured add_fields
    and the event had there. *)
Theorem serializeOnlyFields_fields c event w m str :
  heap w !! Fields event = Some m →
  body_read c m = Some (VString str) →
  (length (Split_space str) = 29 ∨ 35 ≤ length (Split_space str))%nat →
  ∃ m',
    heap (final (serializeOnlyFields lib c event w)) !! Fields event = Some m' ∧
    (∀ name i, (name, i) ∈ tokens_for (Split_space str) →
       m' !! name = VString <$> Split_space str !! i) ∧
    (∀ k, k ∉ (tokens_for (Split_space str)).*1 →
       m' !! k = fields_at_lookup c event m !! k).
Proof.
  intros Hm Hbody Hlen.
  rewrite (serializeOnlyFields_assigns c event w m str Hm Hbody Hlen).
  rewrite (marshal_fields_run _ _ _ (heap_set_map _ _ w)). cbn [final].
  eexists. split; [apply heap_set_map |]. split.
  - intros name i Hin.
    rewrite (store_tokens_lookup _ _ _ name i (tokens_for_NoDup _) Hin).
    pose proof (proj1 (Forall_forall _ _) (tokens_for_in_range _ Hlen) _ Hin) as Hi.
    cbn [snd] in Hi.
    destruct (lookup_lt_is_Some_2 _ _ Hi) as [tok ->]. done.
  - intros k Hk. by apply store_tokens_other.
Qed.

(** *** What a call leaves behind *)

Lemma fields_written_start l X w m :
  heap w !! l = Some m → fields_written l X w (set_map l X w).
Proof.
  intros Hm. repeat split; [| eauto using heap_set_map].
  intros l' Hl'. unfold set_map. cbn. by rewrite lookup_insert_ne.
Qed.

Lemma assign_token_writes l X w0 name slice i w :
  name ∈ token_names →
  fields_written l X w0 w →
  fields_written l X w0 (final (assign_token l name slice i w)).
Proof.
  intros Hname (Hidle & Hticks & Hother & m' & Hm' & Hagree).
  destruct (slice !! i) as [tok |] eqn:Htok.
  - rewrite (assign_token_in_range l name slice i w m' tok Hm' Htok). cbn [final].
    repeat split; try done.
    + intros l' Hl'. unfold set_map. cbn. rewrite lookup_insert_ne by done. auto.
    + eexists. split; [apply heap_set_map |]. intros k Hk.
      rewrite lookup_insert_ne; [auto |]. by intros ->.
  - rewrite assign_token_out_of_range by (by apply lookup_ge_None_1).
    cbn [final]. repeat split; eauto.
Qed.

Lemma assign_tokens_writes {A} l X w0 slice table (k : M A) :
  Forall (λ p, p.1 ∈ token_names) table →
  (∀ w, fields_written l X w0 w → fields_written l X w0 (final (k w))) →
  ∀ w, fields_written l X w0 w →
       fields_written l X w0 (final (assign_tokens l slice table k w)).
Proof.
  intros Hnames Hk. induction Hnames as [| [name i] table Hname _ IH]; [done |].
  intros w Hw.
  change (assign_tokens l slice ((name, i) :: table) k)
    with (assign_token l name slice i ;; assign_tokens l slice table k).
  rewrite final_bind.
  pose proof (assign_token_writes l X w0 name slice i w Hname Hw) as Hstep.
  destruct (result (assign_token l name slice i w)); [by apply IH | done].
Qed.

Lemma marshal_fields_final l w : final (marshal_fields lib l w) = w.
Proof.
  unfold marshal_fields. rewrite final_bind. cbn [map_load result final].
  by destruct (json_Marshal lib _).
Qed.

(** X5: whatever a call of [serializeOnlyFields] on an event with a field
    map ends in, bytes, an error or a panic, it has written the timestamp
    and the configured add_fields into the event's own map, and has
    changed nothing else but the fields it names: no other key of that
    map, no other event's map, not the request pool. *)
Theorem serializeOnlyFields_writes_in_place c event w m :
  heap w !! Fields event = Some m →
  fields_written (Fields event) (fields_at_lookup c event m) w
    (final (serializeOnlyFields lib c event w)).
Proof.
  intros Hm.
  destruct (body_read c m) as [[str | | |] |] eqn:Hbody;
    try (rewrite (serializeOnlyFields_no_string lib c event w m Hm)
           by (intros ?; congruence);
         by apply (fields_written_start _ _ _ m)).
  rewrite (serializeOnlyFields_string lib c event w m str Hm Hbody).
  apply assign_tokens_writes; [| | by apply (fields_written_start _ _ _ m)].
  { by apply (bool_decide_unpack _). }
  intros w1 Hw1. rewrite final_bind.
  assert (Hbranch : fields_written (Fields event) (fields_at_lookup c event m) w
            (final ((if decide (29 < length (Split_space str))%nat
                     then assign_tokens (Fields event) (Split_space str) extra_tokens
                            (assign_token (Fields event) "bytes" (Split_space str) 34)
                     else ret tt) w1))).
  { destruct (decide _); [| done].
    apply assign_tokens_writes; [by apply (bool_decide_unpack _) | | done].
    intros w2 Hw2. apply assign_token_writes; [| done].
    by apply (bool_decide_unpack _). }
  destruct (result _); [| done]. by rewrite marshal_fields_final.
Qed.

(** X6: a second call of [serializeOnlyFields] on the event, in the world
    the first one returned in, returns the same and changes nothing: an
    event that is retried is serialized to the same bytes. *)
Theorem serializeOnlyFields_again c event w m str :
  heap w !! Fields event = Some m →
  body_read c m = Some (VString str) →
  (length (Split_space str) = 29 ∨ 35 ≤ length (Split_space str))%nat →
  result (serializeOnlyFields lib c event
            (final (serializeOnlyFields lib c event w))) =
    result (serializeOnlyFields lib c event w) ∧
  final (serializeOnlyFields lib c event
           (final (serializeOnlyFields lib c event w))) =
    final (serializeOnlyFields lib c event w).
Proof.
  intros Hm Hbody Hlen.
  rewrite (serializeOnlyFields_assigns c event w m str Hm Hbody Hlen).
  set (l := Fields event). set (slice := Split_space str) in *.
  set (X := fields_at_lookup c event m).
  set (m' := store_tokens slice (tokens_for slice) X).
  rewrite (marshal_fields_run _ _ _ (heap_set_map l m' w)). cbn [final result].
  assert (Hbody' : body_read c m' = Some (VString str)).
  { unfold body_read, m'. rewrite lookup_union, store_tokens_other.
    - unfold X. rewrite body_at_lookup. unfold body_read in *.
      rewrite lookup_union in *.
      by destruct (AddFields c !! "body"), (m !! "body").
    - intros Hin%tokens_for_names. revert Hin. by apply (bool_decide_unpack _). }
  assert (Hfix : store_tokens slice (tokens_for slice) (fields_at_lookup c event m') = m').
  { apply map_eq. intros k.
    destruct (decide (k ∈ (tokens_for slice).*1)) as [Hin | Hout].
    - apply list_elem_of_fmap in Hin as ([k' i] & -> & Hin). cbn [fst].
      unfold m'.
      by rewrite !(store_tokens_lookup _ _ _ k' i (tokens_for_NoDup _) Hin).
    - rewrite (store_tokens_other _ _ _ _ Hout). unfold m' at 2.
      rewrite (store_tokens_other _ _ _ _ Hout). unfold X, fields_at_lookup.
      rewrite !lookup_union.
      destruct (decide (k = "@timestamp")) as [-> | Hts].
      + by rewrite !lookup_insert_eq.
      + rewrite !lookup_insert_ne by done. unfold m'.
        rewrite (store_tokens_other _ _ _ _ Hout). unfold X, fields_at_lookup.
        rewrite lookup_union, lookup_insert_ne by done.
        by destruct (AddFields c !! k), (m !! k). }
  rewrite (serializeOnlyFields_assigns c event _ m' str (heap_set_map l m' w)
             Hbody' Hlen).
  fold l slice. rewrite Hfix, set_map_twice.
  by rewrite (marshal_fields_run _ _ _ (heap_set_map l m' w)).
Qed.
End SerializerRuns.

(** ** More on the request pool *)

Section PoolMore.
Variable lib : Lib.

(** [getReq] leaves method and URL of the pooled request as they are and
    puts the payload in. *)
Lemma getReq_from_request out data w req w' r :
  reqPool_Get lib out w = mkRun (Some (ItemRequest req)) w' [] →
  result (getReq lib out data w) = Some (inl r) →
  Method r = Method req ∧ URL r = URL req ∧ Body r = Some data.
Proof.
  intros Hget. rewrite (getReq_from_item lib out data w _ _ Hget). cbn [result].
  intros [= <-]. by destruct (decide (Username (conf out) ≠ "")).
Qed.

(** X7: [getReq] returns an error exactly when the pool hands out no idle
    request and [http.NewRequest] rejects the configured URL, and the
    error is that of [http.NewRequest]; the "pool assertion error" of its
    last line is never returned for another reason. *)
Theorem getReq_error_iff out data w e :
  result (getReq lib out data w) = Some (inr e) ↔
  picked out w = None ∧ NewRequest_error lib (conf_URL (conf out)) = Some e.
Proof.
  unfold picked, getReq, bind, reqPool_Get, reqPool_New.
  destruct (reqPool out (ticks w) (idle w)) as [j |]; cbn [mbind option_bind];
    [destruct (idle w !! j) |];
    try destruct (NewRequest_error lib (conf_URL (conf out)));
    cbn [result final effects ret]; intuition congruence.
Qed.




(** X9: a request given to [putReq] is the one the next [getReq] returns
    when the pool hands out its newest idle request: same method and URL,
    the new payload as body, User-Agent and Content-Type set anew,
    Authorization set anew when a username is configured and left as it
    was otherwise, every other header as it was, and the idle set as it
    was before the [putReq]. *)
Theorem putReq_then_getReq out req data w :
  reqPool out (ticks w) (req :: idle w) = Some 0%nat →
  ∃ req',
    result (getReq lib out data (final (putReq req w))) = Some (inl req') ∧
    Method req' = Method req ∧ URL req' = URL req ∧ Body req' = Some data ∧
    Header req' !! "User-Agent" = Some ["beat " +:+ Version (beat out)] ∧
    Header req' !! "Content-Type" = Some ["application/json"] ∧
    Header req' !! "Authorization" =
      (if decide (Username (conf out) = "") then Header req !! "Authorization"
       else Some ["Basic " +:+ basicAuth lib (Username (conf out))
                                 (Password (conf out))]) ∧
    (∀ k, k ∉ ["User-Agent"; "Content-Type"; "Authorization"] →
          Header req' !! k = Header req !! k) ∧
    idle (final (getReq lib out data (final (putReq req w)))) = idle w.
Proof.
  intros Hpick.
  assert (Hget : reqPool_Get lib out (final (putReq req w)) =
                 mkRun (Some (ItemRequest req))
                   (mkWorld (heap w) (idle w) (S (ticks w))) []).
  { unfold reqPool_Get, putReq. cbn [final idle ticks heap]. by rewrite Hpick. }
  rewrite (getReq_from_item lib out data _ _ _ Hget). cbn [result final idle].
  eexists. split; [done |].
  unfold SetBasicAuth, Header_Set, set_Body.
  destruct (decide (Username (conf out) ≠ "")) as [Hu | Hu];
    cbn [Method URL Body Header].
  - rewrite (decide_False (P := Username (conf out) = "")) by done.
    split; [done |]. split; [done |]. split; [done |].
    split; [by simplify_map_eq |]. split; [by simplify_map_eq |].
    split; [by simplify_map_eq |]. split; [| done].
    intros k Hk. rewrite !not_elem_of_cons in Hk. destruct Hk as (? & ? & ? & _).
    by rewrite !lookup_insert_ne.
  - apply dec_stable in Hu.
    rewrite (decide_True (P := Username (conf out) = "")) by done.
    split; [done |]. split; [done |]. split; [done |].
    split; [by simplify_map_eq |]. split; [by simplify_map_eq |].
    split; [by simplify_map_eq |]. split; [| done].
    intros k Hk. rewrite !not_elem_of_cons in Hk. destruct Hk as (? & ? & ? & _).
    by rewrite !lookup_insert_ne.
Qed.

(** *** send and the pool *)

Lemma send_has_result out data w : ∃ r, result (send lib out data w) = Some r.
Proof.
  pose proof (send_run lib out data w) as Hrun.
  destruct (result (getReq lib out data w)) as [[req | e] |]; [| | done].
  - cbv zeta in Hrun. destruct (client out _ req); rewrite Hrun; eauto.
  - rewrite Hrun. eauto.
Qed.

(** The heap and the length of the idle set after [getReq]. *)
Lemma getReq_world out data w :
  heap (final (getReq lib out data w)) = heap w ∧
  match result (getReq lib out data w) with
  | Some (inl _) =>
      (length (idle w) ≤ S (length (idle (final (getReq lib out data w)))))%nat
  | _ => idle (final (getReq lib out data w)) = idle w
  end.
Proof.
  destruct (reqPool_Get_cases lib out w) as [(i & req & Hi & Hget) | Hget];
    rewrite (getReq_from_item lib out data w _ _ Hget); cbn [result final idle heap].
  - split; [done |]. rewrite length_delete by eauto.
    apply lookup_lt_Some in Hi. lia.
  - split; [done |]. destruct (reqPool_New lib out); cbn; [lia | done | done].
Qed.

(** X10: when [getReq] gives [send] a request, [send] hands exactly that
    request, with the payload as its body, to [client.Do] once, and puts
    it back into the pool once, whatever the remote answers; when
    [getReq] fails nothing is sent and nothing is put back.  [send] never
    leaves the pool with fewer idle requests than it found, and never
    touches a field map. *)
Theorem send_returns_request out data w :
  heap (final (send lib out data w)) = heap w ∧
  (length (idle w) ≤ length (idle (final (send lib out data w))))%nat ∧
  match result (getReq lib out data w) with
  | Some (inl req) =>
      Body req = Some data ∧
      sends (effects (send lib out data w)) = [req] ∧
      ∃ n, puts (effects (send lib out data w)) = [drained n req] ∧
           idle (final (send lib out data w)) =
           drained n req :: idle (final (getReq lib out data w))
  | _ =>
      sends (effects (send lib out data w)) = [] ∧
      puts (effects (send lib out data w)) = []
  end.
Proof.
  pose proof (send_run lib out data w) as Hrun.
  destruct (getReq_world out data w) as [Hheap Hidle].
  destruct (result (getReq lib out data w)) as [[req | e] |] eqn:Hres; [| | done].
  - assert (Hbody : Body req = Some data).
    { destruct (reqPool_Get_cases lib out w) as [(i & r0 & Hi & Hget) | Hget].
      - by destruct (getReq_from_request out data w _ _ _ Hget Hres) as (_ & _ & ?).
      - unfold reqPool_New in Hget.
        destruct (NewRequest_error lib _).
        + rewrite (getReq_from_item lib out data w _ _ Hget) in Hres. done.
        + by destruct (getReq_from_request out data w _ _ _ Hget Hres) as (_ & _ & ?). }
    cbv zeta in Hrun.
    destruct (client out _ req) as [n e | n resp]; rewrite Hrun;
      cbn [final putReq heap idle tick effects].
    + split; [done |]. split; [cbn; lia |]. split; [done |]. split; [done |].
      by exists n.
    + split; [done |]. split; [cbn; lia |]. split; [done |].
      unfold close_log. destruct (BodyCloseErr resp); (split; [done |]); by exists n.
  - rewrite Hrun. cbn [final effects]. rewrite Hidle. by repeat split.
Qed.
End PoolMore.

(** ** Every run of Publish *)

Lemma puts_app es1 es2 : puts (es1 ++ es2) = puts es1 ++ puts es2.
Proof. apply omap_app. Qed.

Lemma logs_no_puts es : Forall is_log es → puts es = [].
Proof. induction 1 as [| e es He _ IH]; [done |]. by destruct e. Qed.

Lemma bind_result_none {A B} (m : M A) (k : A → M B) w :
  result (m w) = None →
  bind m k w = mkRun None (final (m w)) (effects (m w)).
Proof. intros H. unfold bind. by rewrite H. Qed.

Section PublishMore.
Variable lib : Lib.

(** The requests [send] hands out come back, one for one. *)
Lemma send_accounts out data w :
  Forall2 came_back (sends (effects (send lib out data w)))
    (puts (effects (send lib out data w))).
Proof.
  pose proof (send_run lib out data w) as Hrun.
  destruct (result (getReq lib out data w)) as [[req | e] |]; [| | done].
  - cbv zeta in Hrun. destruct (client out _ req) as [n e | n resp]; rewrite Hrun;
      cbn [effects].
    + repeat constructor. by exists n.
    + unfold close_log. destruct (BodyCloseErr resp); repeat constructor; by exists n.
  - rewrite Hrun. constructor.
Qed.

(** The shapes a run of the loop can have. *)
Lemma Publish_loop_outcomes out events rest :
  quiet_serializer out → ∀ w,
  (batch_calls (effects (Publish_loop lib out events rest w)) =
     [BatchACK; ObsAcked (length events)] ∧
   result (Publish_loop lib out events rest w) = Some None) ∨
  (batch_calls (effects (Publish_loop lib out events rest w)) =
     [BatchRetryEvents events; ObsFailed (length events)] ∧
   result (Publish_loop lib out events rest w) = Some None) ∨
  (batch_calls (effects (Publish_loop lib out events rest w)) =
     [ObsFailed (length events)] ∧
   result (Publish_loop lib out events rest w) = Some None) ∨
  (batch_calls (effects (Publish_loop lib out events rest w)) = [] ∧
   result (Publish_loop lib out events rest w) = None).
Proof.
  intros Hq. induction rest as [| event rest IH]; intros w.
  - left. by split.
  - destruct (logs_views _ (Hq event w)) as [Hcalls _].
    destruct (result (serialize out event w)) as [[data | err] |] eqn:Hser.
    + destruct (send_views lib out data (final (serialize out event w)))
        as (Hcalls2 & _ & _).
      destruct (send_has_result lib out data (final (serialize out event w)))
        as [[err |] Hsend].
      * right. right. left.
        rewrite (Publish_loop_send_fails lib out events event rest w data err
                   Hser Hsend).
        cbn [result effects]. rewrite !batch_calls_app, Hcalls, Hcalls2. done.
      * cbn [Publish_loop]. rewrite (bind_result _ _ _ _ Hser).
        rewrite (bind_result _ _ _ _ Hsend). cbn [result effects].
        rewrite !batch_calls_app, Hcalls, Hcalls2. apply IH.
    + right. left.
      rewrite (Publish_loop_serialize_fails lib out events event rest w err Hser).
      cbn [result effects]. rewrite !batch_calls_app, Hcalls. done.
    + right. right. right. cbn [Publish_loop].
      rewrite (bind_result_none _ _ _ Hser). by split.
Qed.

Lemma Publish_loop_accounts out events rest :
  quiet_serializer out → ∀ w,
  Forall2 came_back (sends (effects (Publish_loop lib out events rest w)))
    (puts (effects (Publish_loop lib out events rest w))) ∧
  (length (sends (effects (Publish_loop lib out events rest w))) ≤ length rest)%nat.
Proof.
  intros Hq. induction rest as [| event rest IH]; intros w.
  - split; [constructor | done].
  - destruct (logs_views _ (Hq event w)) as [_ Hsends].
    pose proof (logs_no_puts _ (Hq event w)) as Hputs.
    destruct (result (serialize out event w)) as [[data | err] |] eqn:Hser.
    + pose proof (send_accounts out data (final (serialize out event w))) as Hacc.
      destruct (send_views lib out data (final (serialize out event w)))
        as (_ & Hone & _).
      destruct (send_has_result lib out data (final (serialize out event w)))
        as [[err |] Hsend].
      * rewrite (Publish_loop_send_fails lib out events event rest w data err
                   Hser Hsend).
        cbn [effects]. rewrite !sends_app, !puts_app, Hsends, Hputs.
        cbn [app]. rewrite !app_nil_r. split; [done |]. cbn [length]. lia.
      * cbn [Publish_loop]. rewrite (bind_result _ _ _ _ Hser).
        rewrite (bind_result _ _ _ _ Hsend). cbn [effects].
        rewrite !sends_app, !puts_app, Hsends, Hputs. cbn [app].
        destruct (IH (final (send lib out data (final (serialize out event w)))))
          as [IHacc IHlen].
        split; [by apply Forall2_app |]. rewrite length_app. cbn [length]. lia.
    + rewrite (Publish_loop_serialize_fails lib out events event rest w err Hser).
      cbn [effects]. rewrite !sends_app, !puts_app, Hsends, Hputs.
      split; [constructor | cbn; lia].
    + cbn [Publish_loop]. rewrite (bind_result_none _ _ _ Hser). cbn [effects].
      rewrite Hsends, Hputs. split; [constructor | cbn; lia].
Qed.

Section PublishMoreClaims.
Variables (b : beatInfo) (cd : Codec) (cl : nat → Request → DoResult).
Variables (pool : nat → list Request → option nat) (c : config).

Local Abbreviation out := (makeHTTP lib b cd cl pool c).

(** X11: every run of [Publish] makes one of five sequences of calls on the
    batch and the observer: [NewBatch(0); ACK] for the empty batch;
    [NewBatch(n); ACK; Acked(n)]; [NewBatch(n); RetryEvents(events);
    Failed(n)]; [NewBatch(n); Failed(n)]; or [NewBatch(n)] alone when a
    serializer panics.  So [ACK] and [RetryEvents] are called at most once
    between them, and [Publish] returns nil whenever it returns. *)
Theorem Publish_outcomes batch w :
  (Events batch = [] ∧
   batch_calls (effects (Publish lib out batch w)) = [ObsNewBatch 0; BatchACK] ∧
   result (Publish lib out batch w) = Some None) ∨
  (batch_calls (effects (Publish lib out batch w)) =
     [ObsNewBatch (length (Events batch)); BatchACK;
      ObsAcked (length (Events batch))] ∧
   result (Publish lib out batch w) = Some None) ∨
  (batch_calls (effects (Publish lib out batch w)) =
     [ObsNewBatch (length (Events batch)); BatchRetryEvents (Events batch);
      ObsFailed (length (Events batch))] ∧
   result (Publish lib out batch w) = Some None) ∨
  (batch_calls (effects (Publish lib out batch w)) =
     [ObsNewBatch (length (Events batch)); ObsFailed (length (Events batch))] ∧
   result (Publish lib out batch w) = Some None) ∨
  (batch_calls (effects (Publish lib out batch w)) =
     [ObsNewBatch (length (Events batch))] ∧
   result (Publish lib out batch w) = None).
Proof.
  destruct batch as [events]. cbn [Events].
  destruct events as [| event events]; [left; by repeat split | right].
  rewrite (Publish_nonempty lib out (event :: events) w) by done.
  cbn [result effects].
  change (ObsNewBatch ?n :: ?l) with ([ObsNewBatch n] ++ l).
  rewrite !batch_calls_app.
  destruct (Publish_loop_outcomes out (event :: events) (event :: events)
              (makeHTTP_quiet lib b cd cl pool c) w)
    as [[-> ->] | [[-> ->] | [[-> ->] | [-> ->]]]]; auto 10.
Qed.

(** X12: in every run of [Publish] the requests put back into the pool are
    the requests handed to [client.Do], one for one and in that order,
    each as the transport left it; and no more requests are sent than the
    batch has events. *)
Theorem Publish_accounts_for_requests batch w :
  Forall2 came_back (sends (effects (Publish lib out batch w)))
    (puts (effects (Publish lib out batch w))) ∧
  (length (sends (effects (Publish lib out batch w))) ≤ length (Events batch))%nat.
Proof.
  destruct batch as [events]. cbn [Events].
  destruct events as [| event events]; [split; [constructor | done] |].
  rewrite (Publish_nonempty lib out (event :: events) w) by done.
  cbn [effects].
  exact (Publish_loop_accounts out (event :: events) (event :: events)
           (makeHTTP_quiet lib b cd cl pool c) w).
Qed.

(** X13: when the events before the N-th are serialized and sent and the
    serializer panics on the N-th, as [serializeOnlyFields] does on a
    line it cannot index, [Publish] panics: the observer has heard
    [NewBatch(n)] and nothing else, the batch is neither acknowledged nor
    handed back for retry, and the N-1 events before are already sent. *)
Theorem Publish_panics_with_serializer pre event post w w1 es :
  deliver_all lib out pre w = Some (w1, es) →
  result (serialize out event w1) = None →
  result (Publish lib out (mkBatch (pre ++ event :: post)) w) = None ∧
  batch_calls (effects (Publish lib out (mkBatch (pre ++ event :: post)) w)) =
    [ObsNewBatch (length (pre ++ event :: post))] ∧
  sends (effects (Publish lib out (mkBatch (pre ++ event :: post)) w)) = sends es ∧
  length (sends es) = length pre.
Proof.
  intros Hpre Hser.
  destruct (deliver_all_views lib out pre (makeHTTP_quiet lib b cd cl pool c)
              w w1 es Hpre) as [Hcalls Hsends].
  destruct (logs_views _ (makeHTTP_quiet lib b cd cl pool c event w1))
    as [Hcalls1 Hsends1].
  rewrite Publish_nonempty by (by destruct pre).
  rewrite (Publish_loop_delivered lib out _ pre (event :: post) w w1 es Hpre).
  cbn [Publish_loop]. rewrite (bind_result_none _ _ _ Hser).
  cbn [result effects].
  change (ObsNewBatch ?n :: ?l) with ([ObsNewBatch n] ++ l).
  rewrite !batch_calls_app, !sends_app, Hcalls, Hcalls1, Hsends1.
  change (sends [ObsNewBatch ?n]) with (@nil Request).
  rewrite !app_nil_r. cbn [app]. by repeat split.
Qed.
End PublishMoreClaims.
End PublishMore.

(** ** Splitting the line *)

Lemma Split_space_cons s : ∃ tok toks, Split_space s = tok :: toks.
Proof.
  induction s as [| c s (tok & toks & IH)]; [by eexists _, _ |].
  cbn [Split_space]. rewrite IH. destruct (Ascii.eqb c Space); by eexists _, _.
Qed.

(** X14: [strings.Split(s, " ")] as modelled cuts a line with k spaces
    into k+1 pieces, none of which holds a space, and joining the pieces
    with single spaces gives the line back. *)
Theorem Split_space_pieces s :
  length (Split_space s) = S (count_spaces s) ∧
  Forall (λ tok, count_spaces tok = 0%nat) (Split_space s) ∧
  String.concat " " (Split_space s) = s.
Proof.
  induction s as [| c s (IHlen & IHall & IHcat)]; [by repeat constructor |].
  destruct (Split_space_cons s) as (tok & toks & Hs).
  cbn [Split_space count_spaces]. rewrite Hs in *.
  destruct (Ascii.eqb c Space) eqn:Hc.
  - apply Ascii.eqb_eq in Hc as ->. split; [cbn in *; lia |].
    split; [by constructor |].
    change (String.concat " " ("" :: tok :: toks))
      with (String " " (String.concat " " (tok :: toks))).
    by rewrite IHcat.
  - split; [cbn in *; lia |]. apply Forall_cons in IHall as [Htok Htoks].
    split; [constructor; [cbn; by rewrite Hc | done] |].
    rewrite <- IHcat. by destruct toks.
Qed.

(** ** Connection or error *)

Section DialerMore.
Variable n : Net.

Lemma dial_range_one_of network port ips : ∀ k ip,
  (∃ c, dialed_conn (dial_range n network port k (ip :: ips) None None) = Some c ∧
        dialed_err (dial_range n network port k (ip :: ips) None None) = None) ∨
  (∃ e, dialed_conn (dial_range n network port k (ip :: ips) None None) = None ∧
        dialed_err (dial_range n network port k (ip :: ips) None None) = Some e).
Proof.
  induction ips as [| ip' ips IH]; intros k ip; cbn [dial_range];
    destruct (Dialer_DialContext n k network (JoinHostPort ip port)) as [c | e];
    cbn [dialed_conn dialed_err]; eauto.
Qed.

(** X15: the dialer never returns a connection together with an error, and
    it returns neither, a nil connection with a nil error, exactly when
    the address splits and the resolver answers without any address. *)
Theorem DialContext_conn_or_err network addr :
  (∀ c, dialed_conn (DialContext n network addr) = Some c →
        dialed_err (DialContext n network addr) = None) ∧
  (dialed_conn (DialContext n network addr) = None ∧
   dialed_err (DialContext n network addr) = None ↔
   ∃ host port, SplitHostPort n addr = inl (host, port) ∧
                LookupHost n host = inl []).
Proof.
  unfold DialContext.
  destruct (SplitHostPort n addr) as [[host port] | e].
  - destruct (LookupHost n host) as [[| ip ips] | e] eqn:Hlook.
    + split; [done |]. split; [eauto | done].
    + destruct (dial_range_one_of network port ips 0 ip)
        as [(c & -> & ->) | (e & -> & ->)].
      * split; [done |]. split; [by intros [[=] _] |].
        intros (h & p & [= <- <-] & Hl). congruence.
      * split; [done |]. split; [by intros [_ [=]] |].
        intros (h & p & [= <- <-] & Hl). congruence.
    + split; [done |]. split; [by intros [_ [=]] |].
      intros (h & p & [= <- <-] & Hl). congruence.
  - split; [done |]. split; [by intros [_ [=]] | by intros (? & ? & [=] & _)].
Qed.
End DialerMore.

(** ** The order of the requests *)

Section Payloads.
Variable lib : Lib.

Lemma getReq_body out data w req :
  result (getReq lib out data w) = Some (inl req) → Body req = Some data.
Proof.
  intros Hres.
  destruct (reqPool_Get_cases lib out w) as [(i & r0 & Hi & Hget) | Hget].
  - by destruct (getReq_from_request lib out data w _ _ _ Hget Hres) as (_ & _ & ?).
  - unfold reqPool_New in Hget. destruct (NewRequest_error lib _).
    + rewrite (getReq_from_item lib out data w _ _ Hget) in Hres. done.
    + by destruct (getReq_from_request lib out data w _ _ _ Hget Hres) as (_ & _ & ?).
Qed.

(** A [send] that returns no error has sent one request with the payload
    as its body. *)
Lemma send_ok_body out data w :
  result (send lib out data w) = Some None →
  Body <$> sends (effects (send lib out data w)) = [Some data].
Proof.
  pose proof (send_run lib out data w) as Hrun.
  destruct (result (getReq lib out data w)) as [[req | e] |] eqn:Hres; [| | done].
  - pose proof (getReq_body out data w req Hres) as Hbody.
    cbv zeta in Hrun. destruct (client out _ req) as [n e | n resp];
      rewrite Hrun; cbn [result effects]; [done |].
    intros _. unfold close_log. destruct (BodyCloseErr resp); cbn; by rewrite Hbody.
  - by rewrite Hrun.
Qed.

Lemma deliver_all_payloads out evs :
  quiet_serializer out → ∀ w w' es,
  deliver_all lib out evs w = Some (w', es) →
  Body <$> sends es = Some <$> payloads lib out evs w ∧
  length (payloads lib out evs w) = length evs.
Proof.
  intros Hq. induction evs as [| event evs IH]; intros w w' es Hall.
  - by injection Hall as <- <-.
  - cbn [deliver_all payloads] in *.
    destruct (logs_views _ (Hq event w)) as [_ Hs1].
    destruct (result (serialize out event w)) as [[data | ?] |]; [| done | done].
    destruct (result (send lib out data _)) as [[? |] |] eqn:Hsend; [done | | done].
    destruct (deliver_all lib out evs _) as [[w2 es2] |] eqn:Hrest; [| done].
    injection Hall as <- <-.
    destruct (IH _ _ _ Hrest) as [IHb IHl].
    rewrite !sends_app, Hs1, !fmap_app, (send_ok_body out data _ Hsend), IHb.
    cbn. by rewrite IHl.
Qed.

Section PayloadsClaims.
Variables (b : beatInfo) (cd : Codec) (cl : nat → Request → DoResult).
Variables (pool : nat → list Request → option nat) (c : config).

Local Abbreviation out := (makeHTTP lib b cd cl pool c).

(** X16: when every event of a batch is serialized and sent, the bodies
    of the requests handed to [client.Do] are the serialized events, one
    request per event and in the order of the batch. *)
Theorem Publish_sends_in_order events w w' es :
  events ≠ [] →
  deliver_all lib out events w = Some (w', es) →
  Body <$> sends (effects (Publish lib out (mkBatch events) w)) =
    Some <$> payloads lib out events w ∧
  length (payloads lib out events w) = length events.
Proof.
  intros Hne Hall.
  destruct (deliver_all_payloads out events (makeHTTP_quiet lib b cd cl pool c)
              w w' es Hall) as [Hbodies Hlen].
  rewrite (Publish_nonempty lib out events w Hne).
  pose proof (Publish_loop_delivered lib out events events [] w w' es Hall) as Hloop.
  rewrite app_nil_r in Hloop. rewrite Hloop. cbn [effects].
  change (ObsNewBatch ?n :: ?l) with ([ObsNewBatch n] ++ l).
  rewrite !sends_app. change (sends [ObsNewBatch ?n]) with (@nil Request).
  change (sends (effects (Publish_loop lib out events [] w'))) with (@nil Request).
  rewrite app_nil_r. cbn [app]. by split.
Qed.
End PayloadsClaims.
End Payloads.

(** ** The further properties at work *)

Lemma maskPass_ascii_witness :
  String.length (maskPass "correct horse") = String.length "correct horse" ∧
  ∀ k c, String.get k "correct horse" = Some c →
    String.get k (maskPass "correct horse") =
    Some (if revealed (String.length "correct horse") k then c else "*"%char).
Proof. apply (maskPass_ascii "correct horse"). reflexivity. Defined.

(** A password with a two-byte rune at byte 2: the rune becomes one star,
    and the mask is a byte shorter than the password. *)
Example maskPass_two_byte_rune :
  maskPass (String "a" (String "b" (String (ascii_of_nat 195)
              (String (ascii_of_nat 169) "345678901")))) = "ab********01".
Proof. reflexivity. Qed.

Lemma serializeOnlyFields_panics_on_short_line_witness :
  result (serializeOnlyFields lib_lenient conf_plain event1
            (world_with {[ "body" := VString "a b c" ]})) = None ∧
  effects (serializeOnlyFields lib_lenient conf_plain event1
             (world_with {[ "body" := VString "a b c" ]})) = [].
Proof.
  apply (serializeOnlyFields_panics_on_short_line lib_lenient conf_plain event1
           (world_with {[ "body" := VString "a b c" ]})
           {[ "body" := VString "a b c" ]} "a b c").
  - reflexivity.
  - vm_compute. reflexivity.
  - vm_compute. lia.
Defined.

Lemma serializeOnlyFields_returns_marshal_witness :
  ∃ m',
    heap (final (serializeOnlyFields lib_lenient conf_plain event1
                   (world_with {[ "body" := VString line35 ]}))) !! Fields event1
      = Some m' ∧
    result (serializeOnlyFields lib_lenient conf_plain event1
              (world_with {[ "body" := VString line35 ]}))
      = Some (json_Marshal lib_lenient m') ∧
    effects (serializeOnlyFields lib_lenient conf_plain event1
               (world_with {[ "body" := VString line35 ]})) =
      match json_Marshal lib_lenient m' with
      | inl _ => []
      | inr e => [Log LError "Serialization error: " (Some e)]
      end.
Proof.
  apply (serializeOnlyFields_returns_marshal lib_lenient conf_plain event1
           (world_with {[ "body" := VString line35 ]})
           {[ "body" := VString line35 ]} line35).
  - reflexivity.
  - vm_compute. reflexivity.
  - right. vm_compute. lia.
Defined.

Lemma serializeOnlyFields_fields_witness :
  ∃ m',
    heap (final (serializeOnlyFields lib_lenient conf_plain event1
                   (world_with {[ "body" := VString line35 ]}))) !! Fields event1
      = Some m' ∧
    (∀ name i, (name, i) ∈ tokens_for (Split_space line35) →
       m' !! name = VString <$> Split_space line35 !! i) ∧
    (∀ k, k ∉ (tokens_for (Split_space line35)).*1 →
       m' !! k = fields_at_lookup conf_plain event1
                   {[ "body" := VString line35 ]} !! k).
Proof.
  apply (serializeOnlyFields_fields lib_lenient conf_plain event1
           (world_with {[ "body" := VString line35 ]})
           {[ "body" := VString line35 ]} line35).
  - reflexivity.
  - vm_compute. reflexivity.
  - right. vm_compute. lia.
Defined.

(** A line of 30 pieces: the call panics, and the timestamp is in the
    event's map all the same. *)
Lemma serializeOnlyFields_writes_in_place_witness :
  fields_written (Fields event1)
    (fields_at_lookup conf_plain event1 {[ "body" := VString line30 ]})
    (world_with {[ "body" := VString line30 ]})
    (final (serializeOnlyFields lib_lenient conf_plain event1
              (world_with {[ "body" := VString line30 ]}))).
Proof.
  apply (serializeOnlyFields_writes_in_place lib_lenient conf_plain event1
           (world_with {[ "body" := VString line30 ]})
           {[ "body" := VString line30 ]}).
  reflexivity.
Defined.

Lemma serializeOnlyFields_again_witness :
  result (serializeOnlyFields lib_lenient conf_plain event1
            (final (serializeOnlyFields lib_lenient conf_plain event1
                      (world_with {[ "body" := VString line35 ]})))) =
    result (serializeOnlyFields lib_lenient conf_plain event1
              (world_with {[ "body" := VString line35 ]})) ∧
  final (serializeOnlyFields lib_lenient conf_plain event1
           (final (serializeOnlyFields lib_lenient conf_plain event1
                     (world_with {[ "body" := VString line35 ]})))) =
    final (serializeOnlyFields lib_lenient conf_plain event1
             (world_with {[ "body" := VString line35 ]})).
Proof.
  apply (serializeOnlyFields_again lib_lenient conf_plain event1
           (world_with {[ "body" := VString line35 ]})
           {[ "body" := VString line35 ]} line35).
  - reflexivity.
  - vm_compute. reflexivity.
  - right. vm_compute. lia.
Defined.


Lemma putReq_then_getReq_witness :
  ∃ req',
    result (getReq lib_lenient out_codec (text "next")
              (final (putReq request_used (world_with ∅)))) = Some (inl req') ∧
    Method req' = Method request_used ∧ URL req' = URL request_used ∧
    Body req' = Some (text "next") ∧
    Header req' !! "User-Agent" = Some ["beat " +:+ Version (beat out_codec)] ∧
    Header req' !! "Content-Type" = Some ["application/json"] ∧
    Header req' !! "Authorization" =
      (if decide (Username (conf out_codec) = "")
       then Header request_used !! "Authorization"
       else Some ["Basic " +:+ basicAuth lib_lenient (Username (conf out_codec))
                                 (Password (conf out_codec))]) ∧
    (∀ k, k ∉ ["User-Agent"; "Content-Type"; "Authorization"] →
          Header req' !! k = Header request_used !! k) ∧
    idle (final (getReq lib_lenient out_codec (text "next")
                   (final (putReq request_used (world_with ∅)))))
      = idle (world_with ∅).
Proof.
  apply (putReq_then_getReq lib_lenient out_codec request_used (text "next")
           (world_with ∅)).
  reflexivity.
Defined.

(** The first event has a line of 35 pieces and is sent; the second has
    one of 30 and makes the serializer panic. *)
Lemma Publish_panics_with_serializer_witness :
  ∃ es,
    result (Publish lib_lenient out_fields (mkBatch ([event1] ++ event2 :: [event3]))
              world_two_lines) = None ∧
    batch_calls
      (effects (Publish lib_lenient out_fields
                  (mkBatch ([event1] ++ event2 :: [event3])) world_two_lines)) =
      [ObsNewBatch (length ([event1] ++ event2 :: [event3]))] ∧
    sends
      (effects (Publish lib_lenient out_fields
                  (mkBatch ([event1] ++ event2 :: [event3])) world_two_lines)) =
      sends es ∧
    length (sends es) = length [event1].
Proof.
  eexists.
  eapply (Publish_panics_with_serializer lib_lenient beat_sample codec_message
            remote_sample pool_first conf_plain [event1] event2 [event3]
            world_two_lines).
  - vm_compute. reflexivity.
  - vm_compute. reflexivity.
Defined.

Lemma Publish_sends_in_order_witness :
  Body <$> sends (effects (Publish lib_lenient out_codec (mkBatch [event1; event2])
                             (world_of (msg "a") (msg "b") ∅))) =
    Some <$> payloads lib_lenient out_codec [event1; event2]
               (world_of (msg "a") (msg "b") ∅) ∧
  length (payloads lib_lenient out_codec [event1; event2]
            (world_of (msg "a") (msg "b") ∅)) = length [event1; event2].
Proof.
  eapply (Publish_sends_in_order lib_lenient beat_sample codec_message
            remote_sample pool_first conf_codec [event1; event2]
            (world_of (msg "a") (msg "b") ∅)).
  - discriminate.
  - vm_compute. reflexivity.
Defined.

Example payloads_in_order :
  payloads lib_lenient out_codec [event1; event2] (world_of (msg "a") (msg "b") ∅)
  = [text "a"; text "b"].
Proof. vm_compute. reflexivity. Qed.
